(** * libvmm: FAM records, the ioctl dispatch primitive and the KVM handles

    A shallow embedding of the parts of libvmm that its specification makes
    claims about:

    - [Utility]: [vmm::utility::ioctl] and [close] (utility.hpp), over a
      platform that answers system calls;
    - [Fam]: [FamStruct] and the typed FAM records built on it (types.hpp,
      types.cpp), over a heap of allocations;
    - [Kvm]: [system] and [vm] (system.cpp, vm.cpp, vm.hpp).

    C++ integers are [Z] with the conversions written out; an exception is a
    [Thrown] result; [std::unique_ptr] is an optional heap location. *)

From Stdlib Require Import ZArith Lia Bool.
From stdpp Require Import base option list gmap.

Local Open Scope Z_scope.

(** ** Machine integers *)

Module Ints.

Definition INT_MIN : Z := - 2 ^ 31.
Definition INT_MAX : Z := 2 ^ 31 - 1.
Definition UINT32_MOD : Z := 2 ^ 32.
Definition SIZE_MOD : Z := 2 ^ 64.

(** A value of C type [int]. *)
Definition is_int (z : Z) : Prop := INT_MIN <= z <= INT_MAX.

(** Conversion to [unsigned int] / [uint32_t] / [__u32]. *)
Definition to_u32 (z : Z) : Z := z mod UINT32_MOD.

(** Conversion to [size_t] (64-bit targets). *)
Definition to_size_t (z : Z) : Z := z mod SIZE_MOD.

(** Conversion of an unsigned value to [int]. *)
Definition to_int (z : Z) : Z :=
  let w := z mod UINT32_MOD in
  if w <? 2 ^ 31 then w else w - UINT32_MOD.

End Ints.

(** ** The dispatch primitive (utility.hpp) *)

Module Utility.
Import Ints.

(** The two platform calls the library issues. *)
Inductive syscall : Type :=
  | Sys_ioctl (fd : Z) (req : Z) (arg : Z)
  | Sys_close (fd : Z).

(** What the platform hands back: the call's [int] result, and the value
    [errno] holds after the call. *)
Record sysret : Type := { sr_value : Z; sr_errno : Z }.

(** The platform answers a call in the light of the calls issued before it. *)
Definition platform : Type := list syscall -> syscall -> sysret.

(** [std::system_error{errno, std::system_category()}]. *)
Record system_error : Type := { code : Z }.

Inductive result (A : Type) : Type :=
  | Ok (a : A)
  | Thrown (e : system_error).
Arguments Ok {A} a.
Arguments Thrown {A} e.

(** Code that issues system calls and may throw: it extends the trace of
    calls issued so far. *)
Definition M (A : Type) : Type := list syscall -> result A * list syscall.

Definition ret {A} (a : A) : M A := fun tr => (Ok a, tr).

Definition throw {A} (e : system_error) : M A := fun tr => (Thrown e, tr).

Definition bind {A B} (m : M A) (k : A -> M B) : M B :=
  fun tr =>
    match m tr with
    | (Ok a, tr') => k a tr'
    | (Thrown e, tr') => (Thrown e, tr')
    end.

(** [try { m } catch (std::system_error& e) { h e }]. *)
Definition try_catch {A} (m : M A) (h : system_error -> M A) : M A :=
  fun tr =>
    match m tr with
    | (Ok a, tr') => (Ok a, tr')
    | (Thrown e, tr') => h e tr'
    end.

Declare Scope sys_scope.
Delimit Scope sys_scope with sys.
Notation "x <- m ;; k" := (bind m (fun x => k))
  (at level 100, m at next level, right associativity) : sys_scope.
Notation "m ;;; k" := (bind m (fun _ => k))
  (at level 100, right associativity) : sys_scope.

(** Number of [close] calls a trace holds for descriptor [fd]. *)
Fixpoint closes_of (fd : Z) (tr : list syscall) : nat :=
  match tr with
  | [] => O
  | Sys_close fd' :: tr' =>
      if fd' =? fd then S (closes_of fd tr') else closes_of fd tr'
  | Sys_ioctl _ _ _ :: tr' => closes_of fd tr'
  end.

Section Dispatch.
Variable P : platform.

(** [::ioctl(fd, req, arg)] and [::close(fd)]. *)
Definition sys_call (c : syscall) : M sysret :=
  fun tr => (Ok (P tr c), tr ++ [c]).

(** [[
    template<typename T=int>
    auto ioctl(const int fd, const unsigned long req, T arg=T{}) -> unsigned int {
        const auto ret = ::ioctl(fd, req, arg);
        if (ret < 0) throw std::system_error{errno, std::system_category()};
        return ret;
    }
    ]]
    The optional argument is [None] when the caller leaves it out; [T{}]
    is then zero. *)
Definition ioctl (fd : Z) (req : Z) (arg : option Z) : M Z :=
  (r <- sys_call (Sys_ioctl fd req (default 0 arg)) ;;
   if sr_value r <? 0
   then throw {| code := sr_errno r |}
   else ret (to_u32 (sr_value r)))%sys.

(** Modelled from the spec: [vmm::utility::close] is declared in
    utility.hpp ([auto close(const int fd) -> void;]) and its body is not
    part of the sources. The specification has it issue the platform close
    operation once and fail with a structured error carrying the platform
    error code if the close call itself reports failure. *)
Definition close (fd : Z) : M unit :=
  (r <- sys_call (Sys_close fd) ;;
   if sr_value r <? 0
   then throw {| code := sr_errno r |}
   else ret tt)%sys.

End Dispatch.

(** A platform on which every call succeeds with result [v]. *)
Definition always (v : Z) : platform :=
  fun _ _ => {| sr_value := v; sr_errno := 0 |}.

(** A platform on which every call fails with [errno = e]. *)
Definition failing (e : Z) : platform :=
  fun _ _ => {| sr_value := -1; sr_errno := e |}.

End Utility.

(** ** FAM records (types.hpp, types.cpp) *)

Module Fam.
Import Ints.

(** *** Element types *)

(** [[
    struct kvm_msr_entry { __u32 index; __u32 reserved; __u64 data; };
    ]] *)
Record kvm_msr_entry : Type :=
  { msr_index : Z; msr_reserved : Z; msr_data : Z }.

(** [[
    struct kvm_cpuid_entry2 {
        __u32 function; __u32 index; __u32 flags;
        __u32 eax; __u32 ebx; __u32 ecx; __u32 edx;
        __u32 padding[3];
    };
    ]] *)
Record kvm_cpuid_entry2 : Type :=
  { cpuid_function : Z; cpuid_index : Z; cpuid_flags : Z;
    cpuid_eax : Z; cpuid_ebx : Z; cpuid_ecx : Z; cpuid_edx : Z;
    cpuid_padding : list Z }.

(** [[
    struct kvm_irq_routing_entry {
        __u32 gsi; __u32 type; __u32 flags; __u32 pad;
        union { ...; __u32 pad[8]; } u;
    };
    ]]
    The union is carried as its eight 32-bit words; [irq_type] is the
    discriminant, which the record transports and does not read. *)
Record kvm_irq_routing_entry : Type :=
  { irq_gsi : Z; irq_type : Z; irq_flags : Z; irq_pad : Z; irq_u : list Z }.

(** *** The heap of allocations *)

Definition loc : Type := positive.

(** One [new Buffer[n]] allocation seen through [reinterpret_cast<Struct*>]:
    the number of [Buffer] units it was allocated with, the header's 32-bit
    words (the count field first), and the storage behind the header as the
    whole elements that fit in it. *)
Record block (E : Type) : Type :=
  { blk_units : Z; blk_header : list Z; blk_entries : list E }.
Arguments blk_units {E} b.
Arguments blk_header {E} b.
Arguments blk_entries {E} b.

(** Code over a store [S] whose behaviour may be undefined ([None]): a null
    or dangling dereference, an access outside an allocation, a store through
    a pointer to const. *)
Definition H (S A : Type) : Type := S -> option (A * S).

Definition hret {S A} (a : A) : H S A := fun h => Some (a, h).

Definition hbind {S A B} (m : H S A) (k : A -> H S B) : H S B :=
  fun h => match m h with Some (a, h') => k a h' | None => None end.

Definition undefined {S A} : H S A := fun _ => None.

Declare Scope heap_scope.
Delimit Scope heap_scope with heap.
Notation "x <- m ;; k" := (hbind m (fun x => k))
  (at level 100, m at next level, right associativity) : heap_scope.
Notation "m ;;; k" := (hbind m (fun _ => k))
  (at level 100, right associativity) : heap_scope.

(** The [std::unique_ptr] member [ptr_]: the one data member of
    [FamStruct] and of every class derived from it. *)
Record FamStruct : Type := { ptr_ : option loc }.

(** A pointer to an element of the trailing array: the allocation, the
    element offset from [entries], and whether it points to const. *)
Record pointer : Type := { p_loc : loc; p_off : Z; p_const : bool }.

Definition advance (p : pointer) (k : Z) : pointer :=
  {| p_loc := p_loc p; p_off := p_off p + k; p_const := p_const p |}.

(** The sizes that [FamStruct<Struct, Buffer>] and [value_type] fix. *)
Record layout (E : Type) : Type :=
  { sizeof_Buffer : Z;        (* sizeof(Buffer) *)
    offsetof_entries : Z;     (* sizeof(Struct): where the array starts *)
    sizeof_value_type : Z;    (* sizeof(value_type) *)
    value_zero : E            (* an element of zeroed storage *) }.
Arguments sizeof_Buffer {E} l.
Arguments offsetof_entries {E} l.
Arguments sizeof_value_type {E} l.
Arguments value_zero {E} l.

(** What the sized constructors of the derived classes differ in. *)
Record fam_class (E : Type) : Type :=
  { lay : layout E;
    units_for : Z -> Z;      (* the argument handed to FamStruct *)
    count_param : Z -> Z;    (* conversion to the constructor's parameter type *)
    clears_flags : bool      (* the body also stores ptr_->flags = 0 *) }.
Arguments lay {E} f.
Arguments units_for {E} f n.
Arguments count_param {E} f n.
Arguments clears_flags {E} f.

Section Generic.
Context {E : Type}.

Abbreviation heap := (gmap loc (block E)).

Section Layout.
Variable L : layout E.

(** Bytes of an allocation of [n] units. *)
Definition alloc_bytes (n : Z) : Z := n * sizeof_Buffer L.

(** Bytes the record needs for [n] elements. *)
Definition exact_bytes (n : Z) : Z :=
  offsetof_entries L + n * sizeof_value_type L.

(** The 32-bit header words, and the whole elements behind the header,
    that an allocation of [n] units holds. *)
Definition header_words (n : Z) : nat :=
  Z.to_nat (Z.min (alloc_bytes n) (offsetof_entries L) / 4).

Definition capacity (n : Z) : nat :=
  Z.to_nat ((alloc_bytes n - offsetof_entries L) / sizeof_value_type L).

(** [new Buffer[n]()]: value-initialised, hence zeroed, storage. *)
Definition zeroed (n : Z) : block E :=
  {| blk_units := n;
     blk_header := replicate (header_words n) 0;
     blk_entries := replicate (capacity n) (value_zero L) |}.

(** [[
    FamStruct(const size_t n)
        : ptr_{reinterpret_cast<Struct*>(new Buffer[n]()),
               [](Struct *p){ delete[] reinterpret_cast<Buffer*>(p); }} {}
    ]]
    The allocator is taken to succeed; the new allocation is at a
    location the heap does not hold yet. *)
Definition FamStruct_ctor (n : Z) : H heap FamStruct :=
  fun h =>
    let l := fresh (dom h) in
    Some ({| ptr_ := Some l |}, <[l := zeroed n]> h).
End Layout.

(** [ptr_.get()] for a dereference: the location, provided it is live. *)
Definition deref (this : FamStruct) : H heap (loc * block E) :=
  fun h =>
    match ptr_ this with
    | Some l => match h !! l with Some b => Some ((l, b), h) | None => None end
    | None => None
    end.

(** [ptr_->field = v] for the header word at index [i]. *)
Definition store_header (this : FamStruct) (i : nat) (v : Z) : H heap unit :=
  (lb <- deref this ;;
   let '(l, b) := lb in
   if decide (i < length (blk_header b))%nat
   then fun h =>
     Some (tt, <[l := {| blk_units := blk_units b;
                         blk_header := <[i := v]> (blk_header b);
                         blk_entries := blk_entries b |}]> h)
   else undefined)%heap.

(** [ptr_->nmsrs], [ptr_->nent], [ptr_->nr]: the first header word. *)
Definition size (this : FamStruct) : H heap Z :=
  (lb <- deref this ;;
   match blk_header (snd lb) !! 0%nat with
   | Some n => hret n
   | None => undefined
   end)%heap.

Definition empty (this : FamStruct) : H heap bool :=
  (n <- size this ;; hret (n =? 0))%heap.

(** [ptr_->entries] / [ptr_->indices]. *)
Definition entries (is_const : bool) (this : FamStruct) : H heap pointer :=
  (lb <- deref this ;;
   hret {| p_loc := fst lb; p_off := 0; p_const := is_const |})%heap.

(** [begin()], [end()] and their const overloads; [cbegin()] and [cend()]
    return [begin() const] and [end() const]. *)
Definition begin (this : FamStruct) : H heap pointer := entries false this.
Definition begin_const (this : FamStruct) : H heap pointer := entries true this.
Definition end_ (this : FamStruct) : H heap pointer :=
  (p <- entries false this ;; n <- size this ;; hret (advance p n))%heap.
Definition end_const (this : FamStruct) : H heap pointer :=
  (p <- entries true this ;; n <- size this ;; hret (advance p n))%heap.
Definition cbegin (this : FamStruct) : H heap pointer := begin_const this.
Definition cend (this : FamStruct) : H heap pointer := end_const this.

(** [*p]. *)
Definition ptr_read (p : pointer) : H heap E :=
  fun h =>
    match h !! p_loc p with
    | Some b =>
        if decide (0 <= p_off p)
        then match blk_entries b !! Z.to_nat (p_off p) with
             | Some x => Some (x, h)
             | None => None
             end
        else None
    | None => None
    end.

(** [*p = v]: ill-formed through a pointer to const. *)
Definition ptr_write (p : pointer) (v : E) : H heap unit :=
  fun h =>
    if p_const p then None else
    match h !! p_loc p with
    | Some b =>
        if decide (0 <= p_off p /\ (Z.to_nat (p_off p) < length (blk_entries b))%nat)
        then Some (tt, <[p_loc p :=
                          {| blk_units := blk_units b;
                             blk_header := blk_header b;
                             blk_entries :=
                               <[Z.to_nat (p_off p) := v]> (blk_entries b) |}]> h)
        else None
    | None => None
    end.

(** [for (auto it = first; it != last; ++it) yield *it]. *)
Fixpoint read_n (k : nat) (p : pointer) : H heap (list E) :=
  match k with
  | O => hret []
  | S k' =>
      (x <- ptr_read p ;;
       xs <- read_n k' (advance p 1) ;;
       hret (x :: xs))%heap
  end.

Definition same_array (first last : pointer) : Prop :=
  p_loc first = p_loc last /\ p_off first <= p_off last.

Definition iterate (first last : pointer) : H heap (list E) :=
  if decide (same_array first last)
  then read_n (Z.to_nat (p_off last - p_off first)) first
  else undefined.

(** A range-based [for] over the record: [begin()] to [end()]. *)
Definition elements (this : FamStruct) : H heap (list E) :=
  (first <- begin_const this ;; last <- end_const this ;; iterate first last)%heap.

(** An input iterator range: the iterators of a caller's container, given
    by the values they yield, or two pointers into a FAM record. *)
Inductive range : Type :=
  | Container (xs : list E)
  | Pointers (first last : pointer).

(** [std::distance(first, last)]. *)
Definition distance (r : range) : Z :=
  match r with
  | Container xs => Z.of_nat (length xs)
  | Pointers first last => p_off last - p_off first
  end.

(** [std::copy_if(first, last, d_first, pred)]:
    [[
    for (; first != last; ++first)
        if (pred( *first)) { *d_first = *first; ++d_first; }
    return d_first;
    ]] *)
Fixpoint copy_if_values (xs : list E) (d : pointer) (pred : E -> bool)
  : H heap pointer :=
  match xs with
  | [] => hret d
  | x :: xs' =>
      if pred x
      then (ptr_write d x ;;; copy_if_values xs' (advance d 1) pred)%heap
      else copy_if_values xs' d pred
  end.

Fixpoint copy_if_pointers (k : nat) (first d : pointer) (pred : E -> bool)
  : H heap pointer :=
  match k with
  | O => hret d
  | S k' =>
      (x <- ptr_read first ;;
       if pred x
       then (ptr_write d x ;;;
             copy_if_pointers k' (advance first 1) (advance d 1) pred)
       else copy_if_pointers k' (advance first 1) d pred)%heap
  end.

Definition copy_if (r : range) (d : pointer) (pred : E -> bool) : H heap pointer :=
  match r with
  | Container xs => copy_if_values xs d pred
  | Pointers first last =>
      if decide (same_array first last)
      then copy_if_pointers (Z.to_nat (p_off last - p_off first)) first d pred
      else undefined
  end.

(** The deleter of [ptr_]: [delete[] reinterpret_cast<Buffer*>(p)], run by
    [~unique_ptr] when the pointer is not null. *)
Definition destroy (this : FamStruct) : H heap unit :=
  match ptr_ this with
  | None => hret tt
  | Some l =>
      fun h => match h !! l with
               | Some _ => Some (tt, delete l h)
               | None => None
               end
  end.

(** [unique_ptr(unique_ptr&&)], which the defaulted move constructors
    ([MsrList(MsrList&& other) = default;]) apply to [ptr_]: the new object,
    and [other] as it is left. *)
Definition move_ctor (other : FamStruct) : FamStruct * FamStruct :=
  ({| ptr_ := ptr_ other |}, {| ptr_ := None |}).

(** [[
    auto MsrList::operator=(MsrList other) -> MsrList& {
        other.ptr_.swap(this->ptr_);
        return *this;
    }
    ]]
    followed by the destruction of the by-value parameter [other]. *)
Definition assign (this other : FamStruct) : H heap FamStruct :=
  let this' := {| ptr_ := ptr_ other |} in
  let other' := {| ptr_ := ptr_ this |} in
  (destroy other' ;;; hret this')%heap.

(** [a = std::move(b)]: the parameter is move-constructed from [b]. The
    result is [a] and [b] as they are left. *)
Definition move_assign (a b : FamStruct) : H heap (FamStruct * FamStruct) :=
  let '(other, b') := move_ctor b in
  (a' <- assign a other ;; hret (a', b'))%heap.

Section Class.
Variable C : fam_class E.

(** The sized constructors, e.g.
    [[
    MsrList::MsrList(const size_t n) : FamStruct(n * 2 + 1) { ptr_->nmsrs = n; }
    ]] *)
Definition sized (n : Z) : H heap FamStruct :=
  let n := count_param C n in
  (this <- FamStruct_ctor (lay C) (to_size_t (units_for C n)) ;;
   store_header this 0 (to_u32 n) ;;;
   (if clears_flags C then store_header this 1 0 else hret tt) ;;;
   hret this)%heap.

(** [[
    MsrList::MsrList(value_type entry) : MsrList(1) { ptr_->entries[0] = entry; }
    ]] *)
Definition from_entry (entry : E) : H heap FamStruct :=
  (this <- sized 1 ;;
   p <- entries false this ;;
   ptr_write p entry ;;;
   hret this)%heap.

(** [[
    template <typename Iterator>
    MsrList(Iterator first, Iterator last) : MsrList(std::distance(first, last)) {
        std::copy_if(first, last, ptr_->entries, [](kvm_msr_entry) { return true; });
    }
    ]] *)
Definition from_range (r : range) : H heap FamStruct :=
  (this <- sized (distance r) ;;
   d <- entries false this ;;
   copy_if r d (fun _ => true) ;;;
   hret this)%heap.

(** [[
    MsrList::MsrList(const MsrList& other) : MsrList(other.begin(), other.end()) {}
    ]] *)
Definition copy_ctor (other : FamStruct) : H heap FamStruct :=
  (first <- begin_const other ;;
   last <- end_const other ;;
   from_range (Pointers first last))%heap.

(** [a = b]: the parameter of [operator=] is copy-constructed from [b]. *)
Definition copy_assign (a b : FamStruct) : H heap FamStruct :=
  (other <- copy_ctor b ;; assign a other)%heap.
End Class.

(** *** What the specification says of the constructors *)

(** The block [b] with the trailing array replaced. *)
Definition with_entries (b : block E) (es : list E) : block E :=
  {| blk_units := blk_units b; blk_header := blk_header b; blk_entries := es |}.

(** [xs] written over [es] from element [o] on. *)
Definition overwrite (o : nat) (xs es : list E) : list E :=
  take o es ++ xs ++ drop (o + length xs) es.

Section Claims.
Variable C : fam_class E.

(** The block a sized constructor leaves behind. *)
Definition sized_block (n : Z) : block E :=
  let m := count_param C n in
  let u := to_size_t (units_for C m) in
  {| blk_units := u;
     blk_header :=
       (if clears_flags C then <[1%nat := 0]> else id)
         (<[0%nat := to_u32 m]> (replicate (header_words (lay C) u) 0));
     blk_entries := replicate (capacity (lay C) u) (value_zero (lay C)) |}.

(** The allocation of the sized constructor holds the header words the
    constructor stores to. *)
Definition header_ok (n : Z) : Prop :=
  ((if clears_flags C then 2 else 1)
   <= header_words (lay C) (to_size_t (units_for C (count_param C n))))%nat.

(** The class holds the count [n]: the parameter type of its sized
    constructor represents [n], and the allocation that constructor
    makes has room for the header and for [n] elements. *)
Definition adequate (n : Z) : Prop :=
  count_param C n = n /\
  header_ok n /\
  (Z.to_nat n <= capacity (lay C) (to_size_t (units_for C n)))%nat.

(** A record with count [n] ("the header's count field always equals the
    number of valid trailing elements"): the count is a 32-bit value and
    the allocation holds that many elements. *)
Definition well_formed (b : block E) (n : Z) : Prop :=
  blk_header b !! 0%nat = Some n /\
  0 <= n < UINT32_MOD /\
  (Z.to_nat n <= length (blk_entries b))%nat.

(** Constructing a record of capacity [n]: a fresh, zero-initialised
    buffer whose count field is [n], whose [size()] is [n], and whose
    [begin()] to [end()] spans [n] elements; for [n = 0] the two are
    equal. *)
Definition allocate_ok (n : Z) : Prop :=
  forall h : heap,
  exists this l b,
    sized C n h = Some (this, <[l := b]> h) /\
    ptr_ this = Some l /\ h !! l = None /\
    blk_header b = <[0%nat := n]> (replicate (length (blk_header b)) 0) /\
    (1 <= length (blk_header b))%nat /\
    Forall (eq (value_zero (lay C))) (blk_entries b) /\
    size this (<[l := b]> h) = Some (n, <[l := b]> h) /\
    exists first last xs,
      begin this (<[l := b]> h) = Some (first, <[l := b]> h) /\
      end_ this (<[l := b]> h) = Some (last, <[l := b]> h) /\
      p_off last - p_off first = n /\
      iterate first last (<[l := b]> h) = Some (xs, <[l := b]> h) /\
      Z.of_nat (length xs) = n /\
      (n = 0 -> first = last).

(** Constructing a record from the range [xs]: the count is the length
    of [xs] and iterating the record yields [xs]. *)
Definition from_range_ok (xs : list E) : Prop :=
  forall h : heap,
  exists this l b,
    from_range C (Container xs) h = Some (this, <[l := b]> h) /\
    ptr_ this = Some l /\ h !! l = None /\
    size this (<[l := b]> h) = Some (Z.of_nat (length xs), <[l := b]> h) /\
    elements this (<[l := b]> h) = Some (xs, <[l := b]> h).

(** [p[i] = v] through the mutable [begin()]. *)
Definition set_element (this : FamStruct) (i : nat) (v : E) : H heap unit :=
  (p <- begin this ;; ptr_write (advance p (Z.of_nat i)) v)%heap.

End Claims.
End Generic.

(** *** The classes of types.hpp *)

(** [#define MAX_IO_MSRS 256], [#define MAX_IO_MSRS_FEATURES 22],
    [#define MAX_CPUID_ENTRIES 80]. *)
Definition MAX_IO_MSRS : Z := 256.
Definition MAX_IO_MSRS_FEATURES : Z := 22.
Definition MAX_CPUID_ENTRIES : Z := 80.

(** [struct kvm_msr_list { __u32 nmsrs; __u32 indices[0]; };] over a
    [uint32_t] buffer. *)
Definition kvm_msr_list : layout Z :=
  {| sizeof_Buffer := 4; offsetof_entries := 4; sizeof_value_type := 4;
     value_zero := 0 |}.

(** [struct kvm_msrs { __u32 nmsrs; __u32 pad; struct kvm_msr_entry entries[0]; };]
    over a [uint64_t] buffer. *)
Definition kvm_msrs : layout kvm_msr_entry :=
  {| sizeof_Buffer := 8; offsetof_entries := 8; sizeof_value_type := 16;
     value_zero := {| msr_index := 0; msr_reserved := 0; msr_data := 0 |} |}.

(** [struct kvm_cpuid2 { __u32 nent; __u32 padding; struct kvm_cpuid_entry2 entries[0]; };]
    over a [uint32_t] buffer. *)
Definition kvm_cpuid2 : layout kvm_cpuid_entry2 :=
  {| sizeof_Buffer := 4; offsetof_entries := 8; sizeof_value_type := 40;
     value_zero :=
       {| cpuid_function := 0; cpuid_index := 0; cpuid_flags := 0;
          cpuid_eax := 0; cpuid_ebx := 0; cpuid_ecx := 0; cpuid_edx := 0;
          cpuid_padding := [0; 0; 0] |} |}.

(** [struct kvm_irq_routing { __u32 nr; __u32 flags; struct kvm_irq_routing_entry entries[0]; };].
    The declaration of [IrqRoutingList], which names its [Buffer] type, is
    not part of the sources: [sizeof(Buffer)] is the parameter [buffer]. *)
Definition kvm_irq_routing (buffer : Z) : layout kvm_irq_routing_entry :=
  {| sizeof_Buffer := buffer; offsetof_entries := 8; sizeof_value_type := 48;
     value_zero :=
       {| irq_gsi := 0; irq_type := 0; irq_flags := 0; irq_pad := 0;
          irq_u := [0; 0; 0; 0; 0; 0; 0; 0] |} |}.

(** [[
    MsrIndexList::MsrIndexList(const size_t n) : FamStruct(n + 1) { ptr_->nmsrs = n; }
    MsrFeatureList::MsrFeatureList(const size_t n) : MsrIndexList(n) {}
    ]] *)
Definition MsrIndexList : fam_class Z :=
  {| lay := kvm_msr_list;
     units_for := fun n => n + 1;
     count_param := to_size_t;
     clears_flags := false |}.

Definition MsrFeatureList : fam_class Z := MsrIndexList.

(** [[
    MsrList::MsrList(const size_t n) : FamStruct(n * 2 + 1) { ptr_->nmsrs = n; }
    ]] *)
Definition MsrList : fam_class kvm_msr_entry :=
  {| lay := kvm_msrs;
     units_for := fun n => n * 2 + 1;
     count_param := to_size_t;
     clears_flags := false |}.

(** [[
    CpuidList::CpuidList(const uint32_t n) : FamStruct(n * sizeof(value_type) + 2) { ptr_->nent = n; }
    ]] *)
Definition CpuidList : fam_class kvm_cpuid_entry2 :=
  {| lay := kvm_cpuid2;
     units_for := fun n => n * sizeof_value_type kvm_cpuid2 + 2;
     count_param := to_u32;
     clears_flags := false |}.

(** [[
    IrqRoutingList::IrqRoutingList(const uint32_t n) : FamStruct(n * (sizeof(value_type) / 2) + 1) {
        ptr_->nr = n;
        ptr_->flags = 0;
    }
    ]] *)
Definition IrqRoutingList (buffer : Z) : fam_class kvm_irq_routing_entry :=
  {| lay := kvm_irq_routing buffer;
     units_for := fun n => n * (sizeof_value_type (kvm_irq_routing buffer) / 2) + 1;
     count_param := to_u32;
     clears_flags := true |}.

(** [MsrIndexList()], [MsrFeatureList()] and [CpuidList()]: the default
    constructors allocate the platform maxima
    ([MsrList() : MsrList(MAX_IO_MSRS) {}],
    [MsrFeatureList() : MsrList(MAX_IO_MSRS_FEATURES) {}],
    [CpuidList::CpuidList() : CpuidList(MAX_CPUID_ENTRIES) {}]). *)
Definition MsrIndexList_default : H (gmap loc (block Z)) FamStruct :=
  sized MsrIndexList MAX_IO_MSRS.
Definition MsrFeatureList_default : H (gmap loc (block Z)) FamStruct :=
  sized MsrFeatureList MAX_IO_MSRS_FEATURES.
Definition CpuidList_default : H (gmap loc (block kvm_cpuid_entry2)) FamStruct :=
  sized CpuidList MAX_CPUID_ENTRIES.

(** *** The public surface of the index lists

    The public members of [MsrIndexList] (and so of [MsrFeatureList]) that
    hand out a pointer to the indices. *)
Inductive accessor : Type :=
  | Begin | End           (* auto begin() -> uint32_t*;  auto end() -> uint32_t*; *)
  | BeginConst | EndConst (* auto begin() const -> uint32_t const*; ... *)
  | CBegin | CEnd         (* auto cbegin() const -> uint32_t const*; ... *)
  | Data | DataConst.     (* auto data() noexcept -> pointer; ... const_pointer *)

Definition call (a : accessor) (this : FamStruct) : H (gmap loc (block Z)) pointer :=
  match a with
  | Begin => begin this
  | End => end_ this
  | BeginConst => begin_const this
  | EndConst => end_const this
  | CBegin => cbegin this
  | CEnd => cend this
  | Data => entries false this
  | DataConst => entries true this
  end.

Definition const_qualified (a : accessor) : bool :=
  match a with
  | Begin | End | Data => false
  | BeginConst | EndConst | CBegin | CEnd | DataConst => true
  end.

(** What a caller can do to a list through its public members. *)
Inductive operation : Type :=
  | Nmsrs                                   (* list.nmsrs(), list.size() *)
  | Empty                                   (* list.empty() *)
  | Load (a : accessor) (k : Z)             (* x = list.a()[k] *)
  | Store (a : accessor) (k : Z) (v : Z)    (* list.a()[k] = v *)
  | StoreNmsrs (v : Z).                     (* list.get()->nmsrs = v *)

Definition perform (op : operation) (this : FamStruct)
  : H (gmap loc (block Z)) (option Z) :=
  match op with
  | Nmsrs => (n <- size this ;; hret (Some n))%heap
  | Empty => (b <- empty this ;; hret (Some (if b then 1 else 0)))%heap
  | Load a k =>
      (p <- call a this ;; x <- ptr_read (advance p k) ;; hret (Some x))%heap
  | Store a k v =>
      (p <- call a this ;; ptr_write (advance p k) (to_u32 v) ;;; hret None)%heap
  | StoreNmsrs v => (store_header this 0 (to_u32 v) ;;; hret None)%heap
  end.

(** The operations that go through const-qualified members only, or only
    read. *)
Definition read_only (op : operation) : bool :=
  match op with
  | Nmsrs | Empty | Load _ _ => true
  | Store a _ _ => const_qualified a
  | StoreNmsrs _ => false
  end.

(** No public operation changes the elements or the count of an index
    list. *)
Definition immutable_surface : Prop :=
  forall (h : gmap loc (block Z)) (this : FamStruct) op xs n r h',
    elements this h = Some (xs, h) ->
    size this h = Some (n, h) ->
    perform op this h = Some (r, h') ->
    elements this h' = Some (xs, h') /\ size this h' = Some (n, h').

(** *** Copy assignment

    [a = b] for a live [a] at [la] and a record [b] at [lb] with [n]
    elements [xs]: [a] then owns a new allocation with the count and the
    elements of [b]; the allocation [a] owned before is released; every
    other allocation, that of [b] among them when [b] is not [a] itself, is
    as it was. *)
Definition copy_assign_ok {E : Type} (C : fam_class E) : Prop :=
  forall (h : gmap loc (block E)) (a b : FamStruct) la lb ba bb n,
    ptr_ a = Some la -> ptr_ b = Some lb ->
    h !! la = Some ba -> h !! lb = Some bb -> well_formed bb n ->
    exists l' h' xs,
      copy_assign C a b h = Some ({| ptr_ := Some l' |}, h') /\
      h !! l' = None /\
      elements b h = Some (xs, h) /\
      size {| ptr_ := Some l' |} h' = Some (n, h') /\
      elements {| ptr_ := Some l' |} h' = Some (xs, h') /\
      h' !! la = None /\
      (forall l, l <> la -> l <> l' -> h' !! l = h !! l) /\
      (la <> lb -> elements b h' = Some (xs, h')).

End Fam.

(** ** The KVM handles (system.cpp, vm.cpp, vm.hpp) *)

Module Kvm.
Import Ints Utility.

(** Request codes and capability numbers of [<linux/kvm.h>]:
    [_IO(KVMIO, nr)] is [(KVMIO << 8) | nr]. *)
Definition KVMIO : Z := 174.
Definition _IO (type nr : Z) : Z := Z.lor (Z.shiftl type 8) nr.
Definition KVM_GET_API_VERSION : Z := _IO KVMIO 0.
Definition KVM_CREATE_VM : Z := _IO KVMIO 1.
Definition KVM_CHECK_EXTENSION : Z := _IO KVMIO 3.
Definition KVM_GET_VCPU_MMAP_SIZE : Z := _IO KVMIO 4.
Definition KVM_CAP_NR_VCPUS : Z := 9.
Definition KVM_CAP_NR_MEMSLOTS : Z := 10.
Definition KVM_CAP_MAX_VCPUS : Z := 66.

(** [class system]: the descriptor of /dev/kvm and the flag [close()] sets. *)
Record system : Type := { fd_ : Z; closed_ : bool }.

(** [class vm]: [KvmFd m_fd; size_t m_mmap_size;]. *)
Record vm : Type := { m_fd : Z; m_mmap_size : Z }.

(** [[
    vm(int fd, std::size_t mmap_size) noexcept
        : m_fd{fd}, m_mmap_size{mmap_size} {}
    ]]
    applied to two [unsigned int] arguments. *)
Definition vm_ctor (fd mmap_size : Z) : vm :=
  {| m_fd := to_int fd; m_mmap_size := to_size_t mmap_size |}.

(** [[
    auto vm::mmap_size() const -> std::size_t { return m_mmap_size; }
    ]] *)
Definition mmap_size (v : vm) : Z := m_mmap_size v.

Section Handles.
Variable P : platform.

(** system.cpp reaches the dispatch primitive as [utils::ioctl] and
    [utils::close]; their header utils.hpp is not part of the sources, and
    the primitive of utility.hpp stands for them. *)

(** [auto system::create_vm() -> unsigned int { return utils::ioctl(fd_, KVM_CREATE_VM); }] *)
Definition create_vm (s : system) : M Z := ioctl P (fd_ s) KVM_CREATE_VM None.

(** [auto system::api_version() -> unsigned int { return utils::ioctl(fd_, KVM_GET_API_VERSION); }] *)
Definition api_version (s : system) : M Z :=
  ioctl P (fd_ s) KVM_GET_API_VERSION None.

(** [auto system::vcpu_mmap_size() -> unsigned int { return utils::ioctl(fd_, KVM_GET_VCPU_MMAP_SIZE); }] *)
Definition vcpu_mmap_size (s : system) : M Z :=
  ioctl P (fd_ s) KVM_GET_VCPU_MMAP_SIZE None.

(** [[
    auto system::vm() -> vmm::kvm::vm {
        const auto mmap_size {vcpu_mmap_size()};
        const auto fd {create_vm()};
        return vmm::kvm::vm{fd, mmap_size};
    }
    ]] *)
Definition system_vm (s : system) : M vm :=
  (mmap_size <- vcpu_mmap_size s ;;
   fd <- create_vm s ;;
   ret (vm_ctor fd mmap_size))%sys.

(** [[
    auto system::close() -> void {
        utils::close(fd_);
        closed_ = true;
    }
    ]]
    The result is the object as the call leaves it. *)
Definition system_close (s : system) : M system :=
  (close P (fd_ s) ;;;
   ret {| fd_ := fd_ s; closed_ := true |})%sys.

(** [[
    system::~system() noexcept {
        if (!closed_) {
            try { utils::close(fd_); }
            catch (std::system_error& e) { /* TODO: log error */ }
        }
    }
    ]] *)
Definition system_dtor (s : system) : M unit :=
  if negb (closed_ s)
  then try_catch (close P (fd_ s)) (fun _ => ret tt)
  else ret tt.

(** Modelled from the spec: [KvmFd::ioctl] is declared in
    file_descriptor.hpp, which is not part of the sources. The
    specification has every operation go through the dispatch primitive on
    the descriptor the node owns: it returns the non-negative result and
    fails with the platform error code on a negative one. *)
Definition KvmFd_ioctl (fd : Z) (req : Z) (arg : option Z) : M Z :=
  ioctl P fd req arg.

(** [[
    auto vm::check_extension(unsigned cap) const -> unsigned
    {
        return m_fd.ioctl(KVM_CHECK_EXTENSION, cap);
    }
    ]] *)
Definition check_extension (v : vm) (cap : Z) : M Z :=
  KvmFd_ioctl (m_fd v) KVM_CHECK_EXTENSION (Some cap).

(** [[
    auto vm::num_vcpus() const -> unsigned
    {
        auto ret = check_extension(KVM_CAP_NR_VCPUS);
        return ret > 0 ? ret : 4;
    }
    ]] *)
Definition num_vcpus (v : vm) : M Z :=
  (r <- check_extension v KVM_CAP_NR_VCPUS ;;
   ret (if r >? 0 then r else 4))%sys.

(** [[
    auto vm::max_vcpus() const -> unsigned
    {
        auto ret = check_extension(KVM_CAP_MAX_VCPUS);
        return ret > 0 ? ret : num_vcpus();
    }
    ]] *)
Definition max_vcpus (v : vm) : M Z :=
  (r <- check_extension v KVM_CAP_MAX_VCPUS ;;
   if r >? 0 then ret r else num_vcpus v)%sys.

(** [[
    auto vm::num_memslots() const -> unsigned
    {
        auto ret = check_extension(KVM_CAP_NR_MEMSLOTS);
        return ret > 0 ? ret : 32;
    }
    ]] *)
Definition num_memslots (v : vm) : M Z :=
  (r <- check_extension v KVM_CAP_NR_MEMSLOTS ;;
   ret (if r >? 0 then r else 32))%sys.

End Handles.

(** Platforms to run the handles on. [kvm_host] answers the size query with
    three pages, hands out descriptor 5 for a new machine and reports no
    capability; [kvm_host_caps] reports each capability as its own number. *)
Definition kvm_host : platform :=
  fun _ c =>
    match c with
    | Sys_ioctl _ req _ =>
        if req =? KVM_GET_VCPU_MMAP_SIZE then {| sr_value := 12288; sr_errno := 0 |}
        else if req =? KVM_CREATE_VM then {| sr_value := 5; sr_errno := 0 |}
        else {| sr_value := 0; sr_errno := 0 |}
    | Sys_close _ => {| sr_value := 0; sr_errno := 0 |}
    end.

Definition kvm_host_caps : platform :=
  fun _ c =>
    match c with
    | Sys_ioctl _ req arg =>
        if req =? KVM_CHECK_EXTENSION then {| sr_value := arg; sr_errno := 0 |}
        else {| sr_value := 0; sr_errno := 0 |}
    | Sys_close _ => {| sr_value := 0; sr_errno := 0 |}
    end.

(** A platform on which the first [close] fails with [EIO] and later ones
    succeed. *)
Definition close_fails_once : platform :=
  fun tr c =>
    match c with
    | Sys_close fd =>
        if Nat.eqb (closes_of fd tr) 0
        then {| sr_value := -1; sr_errno := 5 |}
        else {| sr_value := 0; sr_errno := 0 |}
    | Sys_ioctl _ _ _ => {| sr_value := 0; sr_errno := 0 |}
    end.

(** *** More of [vm] (vm.cpp, vm.hpp, vcpu.hpp) *)

(** [_IOW(type, nr, size)] of [<asm-generic/ioctl.h>]:
    [(_IOC_WRITE << 30) | (size << 16) | (type << 8) | nr]. *)
Definition _IOW (type nr size : Z) : Z :=
  Z.lor (Z.shiftl 1 30) (Z.lor (Z.shiftl size 16) (Z.lor (Z.shiftl type 8) nr)).

(** [KVM_CREATE_VCPU] is [_IO(KVMIO, 0x41)]; [KVM_IOEVENTFD] is
    [_IOW(KVMIO, 0x79, struct kvm_ioeventfd)], a struct of 64 bytes. *)
Definition KVM_CREATE_VCPU : Z := _IO KVMIO 65.
Definition KVM_IOEVENTFD : Z := _IOW KVMIO 121 64.

(** The flag bits of [struct kvm_ioeventfd]: [1 << 0], [1 << 1], [1 << 2]. *)
Definition KVM_IOEVENTFD_FLAG_DATAMATCH : Z := Z.shiftl 1 0.
Definition KVM_IOEVENTFD_FLAG_PIO : Z := Z.shiftl 1 1.
Definition KVM_IOEVENTFD_FLAG_DEASSIGN : Z := Z.shiftl 1 2.

(** [[
    struct kvm_ioeventfd {
        __u64 datamatch; __u64 addr; __u32 len; __s32 fd; __u32 flags;
        __u8  pad[36];
    };
    ]] *)
Record kvm_ioeventfd : Type :=
  { datamatch : Z; addr : Z; len : Z; fd : Z; flags : Z }.

(** [vmm::types::IoEventAddress], the template parameter of the ioevent
    operations; vm.hpp compares it with [IoEventAddress::Pio] only. *)
Inductive IoEventAddress : Type := Pio | Mmio.

(** [class vcpu]: [KvmFd m_fd;], set by [explicit vcpu(int fd)]. *)
Record vcpu : Type := { vcpu_fd : Z }.

Section Machine.
Variable P : platform.

(** How the platform receives a pointer to a local [kvm_ioeventfd]: the
    argument of the call, through which it reads the struct. *)
Variable address_of : kvm_ioeventfd -> Z.

(** [[
    auto vm::vcpu(unsigned vcpu_id) const -> vmm::kvm::detail::vcpu
    {
        return vmm::kvm::detail::vcpu{m_fd.ioctl(KVM_CREATE_VCPU, vcpu_id)};
    }
    ]] *)
Definition vm_vcpu (v : vm) (vcpu_id : Z) : M vcpu :=
  (fd <- KvmFd_ioctl P (m_fd v) KVM_CREATE_VCPU (Some vcpu_id) ;;
   ret {| vcpu_fd := to_int fd |})%sys.

(** [[
    template<vmm::types::IoEventAddress T>
    auto attach_ioevent(vmm::types::EventFd eventfd, uint64_t addr,
                        uint64_t datamatch=0) const -> void
    {
        auto flags = uint32_t{};
        if (datamatch > 0) { flags |= KVM_IOEVENTFD_FLAG_DATAMATCH; }
        if constexpr (T == vmm::types::IoEventAddress::Pio) {
            flags |= KVM_IOEVENTFD_FLAG_PIO;
        }
        auto ioeventfd = kvm_ioeventfd {
            datamatch, addr, sizeof(uint64_t), eventfd.fd(), flags
        };
        m_fd.ioctl(KVM_IOEVENTFD, &ioeventfd);
    }
    ]]
    [eventfd] is the descriptor [eventfd.fd()] returns. *)
Definition attach_ioevent (T : IoEventAddress) (v : vm)
  (eventfd addr datamatch : Z) : M unit :=
  let flags := 0 in
  let flags :=
    if datamatch >? 0 then Z.lor flags KVM_IOEVENTFD_FLAG_DATAMATCH else flags in
  let flags :=
    match T with Pio => Z.lor flags KVM_IOEVENTFD_FLAG_PIO | Mmio => flags end in
  let ioeventfd :=
    {| datamatch := datamatch; addr := addr; len := 8; fd := eventfd;
       flags := flags |} in
  (KvmFd_ioctl P (m_fd v) KVM_IOEVENTFD (Some (address_of ioeventfd)) ;;;
   ret tt)%sys.

(** [detach_ioevent]: as [attach_ioevent], but for
    [[
        auto flags = uint32_t{KVM_IOEVENTFD_FLAG_DEASSIGN};
    ]] *)
Definition detach_ioevent (T : IoEventAddress) (v : vm)
  (eventfd addr datamatch : Z) : M unit :=
  let flags := KVM_IOEVENTFD_FLAG_DEASSIGN in
  let flags :=
    if datamatch >? 0 then Z.lor flags KVM_IOEVENTFD_FLAG_DATAMATCH else flags in
  let flags :=
    match T with Pio => Z.lor flags KVM_IOEVENTFD_FLAG_PIO | Mmio => flags end in
  let ioeventfd :=
    {| datamatch := datamatch; addr := addr; len := 8; fd := eventfd;
       flags := flags |} in
  (KvmFd_ioctl P (m_fd v) KVM_IOEVENTFD (Some (address_of ioeventfd)) ;;;
   ret tt)%sys.

End Machine.

End Kvm.

(** * Properties *)

(** ** Machine integers *)

Section IntsFacts.
Import Ints.

Lemma to_u32_range z : 0 <= to_u32 z < UINT32_MOD.
Proof. unfold to_u32, UINT32_MOD. apply Z.mod_pos_bound. lia. Qed.

Lemma to_u32_small z : 0 <= z < UINT32_MOD -> to_u32 z = z.
Proof. intros Hz. unfold to_u32. now apply Z.mod_small. Qed.

Lemma to_u32_of_nonneg_int z : is_int z -> 0 <= z -> to_u32 z = z.
Proof.
  unfold is_int, INT_MIN, INT_MAX. intros Hz Hnn.
  apply to_u32_small. unfold UINT32_MOD. lia.
Qed.

Lemma to_size_t_small z : 0 <= z < SIZE_MOD -> to_size_t z = z.
Proof. intros Hz. unfold to_size_t. now apply Z.mod_small. Qed.

Lemma to_int_small z : 0 <= z <= INT_MAX -> to_int z = z.
Proof.
  unfold INT_MAX, to_int, UINT32_MOD. intros Hz.
  rewrite Z.mod_small by lia.
  destruct (Z.ltb_spec z (2 ^ 31)); lia.
Qed.

End IntsFacts.

(** ** The dispatch primitive *)

Section UtilityFacts.
Import Ints Utility.
Variable P : platform.

Lemma closes_of_app fd tr1 tr2 :
  closes_of fd (tr1 ++ tr2) = (closes_of fd tr1 + closes_of fd tr2)%nat.
Proof.
  induction tr1 as [|c tr1 IH]; simpl; [reflexivity|].
  destruct c as [? ? ?|fd']; [exact IH|].
  destruct (fd' =? fd); simpl; now rewrite IH.
Qed.

(** Both branches of [ioctl], as equations. *)
Lemma ioctl_ok fd req arg tr :
  let c := Sys_ioctl fd req (default 0 arg) in
  0 <= sr_value (P tr c) ->
  ioctl P fd req arg tr = (Ok (to_u32 (sr_value (P tr c))), tr ++ [c]).
Proof.
  intros c Hr. unfold ioctl, bind, sys_call, ret. fold c.
  destruct (Z.ltb_spec (sr_value (P tr c)) 0); [lia|reflexivity].
Qed.

Lemma ioctl_thrown fd req arg tr :
  let c := Sys_ioctl fd req (default 0 arg) in
  sr_value (P tr c) < 0 ->
  ioctl P fd req arg tr = (Thrown {| code := sr_errno (P tr c) |}, tr ++ [c]).
Proof.
  intros c Hr. unfold ioctl, bind, sys_call, throw. fold c.
  destruct (Z.ltb_spec (sr_value (P tr c)) 0); [reflexivity|lia].
Qed.

(** A value [ioctl] returns is an [unsigned int]; it is never negative. *)
Lemma ioctl_range fd req arg tr v tr' :
  ioctl P fd req arg tr = (Ok v, tr') -> 0 <= v < UINT32_MOD.
Proof.
  unfold ioctl, bind, sys_call, ret, throw.
  destruct (_ <? 0); intros Heq; inversion Heq; subst.
  apply to_u32_range.
Qed.

Lemma ioctl_nonneg fd req arg tr v tr' :
  ioctl P fd req arg tr = (Ok v, tr') -> 0 <= v.
Proof. intros Heq. now apply ioctl_range in Heq. Qed.

(** [close] issues exactly one platform close, whether or not it throws. *)
Lemma close_trace fd tr : snd (close P fd tr) = tr ++ [Sys_close fd].
Proof.
  unfold close, bind, sys_call, ret, throw.
  destruct (_ <? 0); reflexivity.
Qed.

(** C1. For every file descriptor, request code and optional argument, the
    dispatch primitive returns the underlying call's result, a non-negative
    integer, when that result is non-negative, and throws a
    [std::system_error] carrying [errno] when the underlying call reports a
    negative result; a value it returns is never negative, and is never the
    outcome of a negative result. *)
Theorem ioctl_dispatch (fd req : Z) (arg : option Z) (tr : list syscall) :
  let r := P tr (Sys_ioctl fd req (default 0 arg)) in
  is_int (sr_value r) ->
  (0 <= sr_value r -> fst (ioctl P fd req arg tr) = Ok (sr_value r)) /\
  (sr_value r < 0 ->
     fst (ioctl P fd req arg tr) = Thrown {| code := sr_errno r |}) /\
  (forall v, fst (ioctl P fd req arg tr) = Ok v ->
     0 <= v /\ v = sr_value r).
Proof.
  intros r Hint. repeat split.
  - intros Hr. rewrite (ioctl_ok fd req arg tr Hr). simpl.
    f_equal. now apply to_u32_of_nonneg_int.
  - intros Hr. now rewrite (ioctl_thrown fd req arg tr Hr).
  - destruct (Z.lt_ge_cases (sr_value r) 0) as [Hr|Hr].
    + rewrite (ioctl_thrown fd req arg tr Hr) in H. discriminate H.
    + rewrite (ioctl_ok fd req arg tr Hr) in H. simpl in H.
      inversion H. apply to_u32_range.
  - destruct (Z.lt_ge_cases (sr_value r) 0) as [Hr|Hr].
    + rewrite (ioctl_thrown fd req arg tr Hr) in H. discriminate H.
    + rewrite (ioctl_ok fd req arg tr Hr) in H. simpl in H.
      inversion H. now apply to_u32_of_nonneg_int.
Qed.

End UtilityFacts.

(** On a platform that answers 7 the primitive returns 7; on one that
    answers -1 with [errno = 22] it throws 22. *)
Lemma ioctl_dispatch_witness :
  Ints.is_int 7 /\
  fst (Utility.ioctl (Utility.always 7) 3 44547 None []) = Utility.Ok 7 /\
  fst (Utility.ioctl (Utility.failing 22) 3 44547 (Some 1) [])
  = Utility.Thrown {| Utility.code := 22 |}.
Proof.
  assert (Hint : Ints.is_int 7) by (unfold Ints.is_int, Ints.INT_MIN, Ints.INT_MAX; lia).
  assert (Hneg : Ints.is_int (-1)) by (unfold Ints.is_int, Ints.INT_MIN, Ints.INT_MAX; lia).
  split; [exact Hint|]. split.
  - apply (ioctl_dispatch (Utility.always 7) 3 44547 None [] Hint). simpl. lia.
  - apply (ioctl_dispatch (Utility.failing 22) 3 44547 (Some 1) [] Hneg). simpl. lia.
Defined.

(** ** The KVM handles *)

Section KvmFacts.
Import Ints Utility Kvm.
Variable P : platform.

(** *** [system::close] and [system::~system] *)

(** After a [close()] that returned, the flag is set and the destructor
    issues no call. *)
Lemma close_then_dtor_closes_once s tr s' tr' :
  system_close P s tr = (Ok s', tr') ->
  closed_ s' = true /\ fd_ s' = fd_ s /\
  tr' = tr ++ [Sys_close (fd_ s)] /\
  system_dtor P s' tr' = (Ok tt, tr').
Proof.
  unfold system_close, bind. intros Heq.
  pose proof (close_trace P (fd_ s) tr) as Htr.
  destruct (close P (fd_ s) tr) as [[[]|e] tr1]; simpl in *; [|discriminate Heq].
  unfold ret in Heq. inversion Heq; subst. simpl.
  repeat split.
Qed.

(** The destructor never throws: a failure of the close it attempts is
    caught and dropped. *)
Lemma dtor_never_throws s tr : fst (system_dtor P s tr) = Ok tt.
Proof.
  unfold system_dtor. destruct (closed_ s); simpl; [reflexivity|].
  unfold try_catch. destruct (close P (fd_ s) tr) as [[[]|e] tr1]; reflexivity.
Qed.

(** The destructor of an object whose flag is clear issues one close. *)
Lemma dtor_open_closes_once s tr :
  closed_ s = false ->
  snd (system_dtor P s tr) = tr ++ [Sys_close (fd_ s)].
Proof.
  intros Hc. unfold system_dtor. rewrite Hc. simpl.
  pose proof (close_trace P (fd_ s) tr) as Htr.
  unfold try_catch. destruct (close P (fd_ s) tr) as [[[]|e] tr1]; exact Htr.
Qed.

(** [close()] does not look at [closed_]: each call issues the platform
    close. *)
Lemma system_close_always_closes s tr :
  closes_of (fd_ s) (snd (system_close P s tr)) = S (closes_of (fd_ s) tr).
Proof.
  unfold system_close, bind.
  pose proof (close_trace P (fd_ s) tr) as Htr.
  destruct (close P (fd_ s) tr) as [[[]|e] tr1]; simpl in *; subst tr1;
    rewrite closes_of_app; simpl; rewrite Z.eqb_refl; lia.
Qed.

(** *** [system::vm] *)

(** The [unsigned int] the size query returns converts to [size_t]
    unchanged. *)
Lemma vcpu_mmap_size_fits s tr sz tr1 :
  vcpu_mmap_size P s tr = (Ok sz, tr1) -> to_size_t sz = sz.
Proof.
  intros Hq. unfold vcpu_mmap_size in Hq.
  apply ioctl_range in Hq. apply to_size_t_small.
  unfold UINT32_MOD, SIZE_MOD in *. lia.
Qed.

(** The two requests of [system::vm], as the platform answers them. *)
Lemma vcpu_mmap_size_answer s tr :
  let c1 := Sys_ioctl (fd_ s) KVM_GET_VCPU_MMAP_SIZE 0 in
  (0 <= sr_value (P tr c1) ->
   vcpu_mmap_size P s tr = (Ok (to_u32 (sr_value (P tr c1))), tr ++ [c1])) /\
  (sr_value (P tr c1) < 0 ->
   vcpu_mmap_size P s tr = (Thrown {| code := sr_errno (P tr c1) |}, tr ++ [c1])).
Proof.
  intros c1. split; intros Hr.
  - exact (ioctl_ok P (fd_ s) KVM_GET_VCPU_MMAP_SIZE None tr Hr).
  - exact (ioctl_thrown P (fd_ s) KVM_GET_VCPU_MMAP_SIZE None tr Hr).
Qed.

Lemma create_vm_answer s tr :
  let c2 := Sys_ioctl (fd_ s) KVM_CREATE_VM 0 in
  (0 <= sr_value (P tr c2) ->
   create_vm P s tr = (Ok (to_u32 (sr_value (P tr c2))), tr ++ [c2])) /\
  (sr_value (P tr c2) < 0 ->
   create_vm P s tr = (Thrown {| code := sr_errno (P tr c2) |}, tr ++ [c2])).
Proof.
  intros c2. split; intros Hr.
  - exact (ioctl_ok P (fd_ s) KVM_CREATE_VM None tr Hr).
  - exact (ioctl_thrown P (fd_ s) KVM_CREATE_VM None tr Hr).
Qed.

(** C9. Deriving a machine node from the root issues, on the descriptor of
    the root, the request for the size of the shared memory region and the
    request that creates the machine. When the platform answers both with a
    non-negative result, the derivation returns a machine that owns the
    descriptor the creation request returned and caches the size, so that
    [mmap_size()] of the machine is exactly the value [vcpu_mmap_size()] of
    the root returns there. When the platform answers the size query with a
    negative result the derivation throws its [errno]; when it answers the
    creation request with a negative result the derivation throws that
    [errno]. A machine is returned in no other case. *)
Theorem system_vm_caches_mmap_size (s : system) (tr : list syscall) :
  let c1 := Sys_ioctl (fd_ s) KVM_GET_VCPU_MMAP_SIZE 0 in
  let c2 := Sys_ioctl (fd_ s) KVM_CREATE_VM 0 in
  let r1 := P tr c1 in
  let r2 := P (tr ++ [c1]) c2 in
  (0 <= sr_value r1 -> 0 <= sr_value r2 ->
   exists m,
     system_vm P s tr = (Ok m, tr ++ [c1; c2]) /\
     vcpu_mmap_size P s tr = (Ok (mmap_size m), tr ++ [c1]) /\
     mmap_size m = to_u32 (sr_value r1) /\
     m_fd m = to_int (to_u32 (sr_value r2)) /\
     (is_int (sr_value r1) -> mmap_size m = sr_value r1) /\
     (is_int (sr_value r2) -> m_fd m = sr_value r2)) /\
  (sr_value r1 < 0 ->
   vcpu_mmap_size P s tr = (Thrown {| code := sr_errno r1 |}, tr ++ [c1]) /\
   system_vm P s tr = (Thrown {| code := sr_errno r1 |}, tr ++ [c1])) /\
  (0 <= sr_value r1 -> sr_value r2 < 0 ->
   system_vm P s tr = (Thrown {| code := sr_errno r2 |}, tr ++ [c1; c2])) /\
  (forall m tr',
      system_vm P s tr = (Ok m, tr') ->
      0 <= sr_value r1 /\ 0 <= sr_value r2 /\ tr' = tr ++ [c1; c2] /\
      vcpu_mmap_size P s tr = (Ok (mmap_size m), tr ++ [c1])).
Proof.
  intros c1 c2 r1 r2.
  destruct (vcpu_mmap_size_answer s tr) as [Hq_ok Hq_no].
  destruct (create_vm_answer s (tr ++ [c1])) as [Hc_ok Hc_no].
  fold c1 in Hq_ok, Hq_no. fold c2 in Hc_ok, Hc_no.
  fold r1 in Hq_ok, Hq_no. fold r2 in Hc_ok, Hc_no.
  assert (Hfits : 0 <= sr_value r1 -> to_size_t (to_u32 (sr_value r1))
                                     = to_u32 (sr_value r1)).
  { intros Hr1. exact (vcpu_mmap_size_fits s tr _ _ (Hq_ok Hr1)). }
  assert (Hboth : 0 <= sr_value r1 -> 0 <= sr_value r2 ->
                  system_vm P s tr
                  = (Ok {| m_fd := to_int (to_u32 (sr_value r2));
                           m_mmap_size := to_u32 (sr_value r1) |},
                     tr ++ [c1; c2])).
  { intros Hr1 Hr2. unfold system_vm, bind.
    rewrite (Hq_ok Hr1), (Hc_ok Hr2). unfold ret, vm_ctor.
    rewrite (Hfits Hr1), <- app_assoc. reflexivity. }
  assert (Hfirst : sr_value r1 < 0 ->
                   system_vm P s tr
                   = (Thrown {| code := sr_errno r1 |}, tr ++ [c1])).
  { intros Hr1. unfold system_vm, bind. now rewrite (Hq_no Hr1). }
  assert (Hsecond : 0 <= sr_value r1 -> sr_value r2 < 0 ->
                    system_vm P s tr
                    = (Thrown {| code := sr_errno r2 |}, tr ++ [c1; c2])).
  { intros Hr1 Hr2. unfold system_vm, bind.
    rewrite (Hq_ok Hr1), (Hc_no Hr2), <- app_assoc. reflexivity. }
  split; [|split; [|split]].
  - intros Hr1 Hr2. eexists. split; [exact (Hboth Hr1 Hr2)|].
    unfold mmap_size. cbn [m_mmap_size m_fd].
    split; [exact (Hq_ok Hr1)|]. split; [reflexivity|]. split; [reflexivity|].
    split.
    + intros Hint. now apply to_u32_of_nonneg_int.
    + intros Hint. rewrite (to_u32_of_nonneg_int _ Hint Hr2).
      apply to_int_small. destruct Hint as [_ Hmax]. lia.
  - intros Hr1. split; [exact (Hq_no Hr1)|exact (Hfirst Hr1)].
  - exact Hsecond.
  - intros m tr' Hvm.
    destruct (Z.lt_ge_cases (sr_value r1) 0) as [Hr1|Hr1].
    { rewrite (Hfirst Hr1) in Hvm. discriminate Hvm. }
    destruct (Z.lt_ge_cases (sr_value r2) 0) as [Hr2|Hr2].
    { rewrite (Hsecond Hr1 Hr2) in Hvm. discriminate Hvm. }
    rewrite (Hboth Hr1 Hr2) in Hvm. injection Hvm as <- <-.
    split; [exact Hr1|]. split; [exact Hr2|]. split; [reflexivity|].
    exact (Hq_ok Hr1).
Qed.

(** *** The limit queries of [vm] *)

Lemma check_extension_nonneg v cap tr r tr' :
  check_extension P v cap tr = (Ok r, tr') -> 0 <= r.
Proof. unfold check_extension, KvmFd_ioctl. apply ioctl_nonneg. Qed.

(** C10. Each limit query of the machine node substitutes a default when
    the capability check reports 0: [num_vcpus()] returns 4,
    [max_vcpus()] falls back to [num_vcpus()], [num_memslots()] returns
    32. When the check returns a positive value the query returns that
    value unchanged. The check returns no other values, and when it throws
    so does the query. *)
Theorem limit_queries_default (v : vm) (tr : list syscall) :
  (forall tr', check_extension P v KVM_CAP_NR_VCPUS tr = (Ok 0, tr') ->
               num_vcpus P v tr = (Ok 4, tr')) /\
  (forall tr', check_extension P v KVM_CAP_MAX_VCPUS tr = (Ok 0, tr') ->
               max_vcpus P v tr = num_vcpus P v tr') /\
  (forall tr', check_extension P v KVM_CAP_NR_MEMSLOTS tr = (Ok 0, tr') ->
               num_memslots P v tr = (Ok 32, tr')) /\
  (forall r tr', 0 < r ->
     (check_extension P v KVM_CAP_NR_VCPUS tr = (Ok r, tr') ->
      num_vcpus P v tr = (Ok r, tr')) /\
     (check_extension P v KVM_CAP_MAX_VCPUS tr = (Ok r, tr') ->
      max_vcpus P v tr = (Ok r, tr')) /\
     (check_extension P v KVM_CAP_NR_MEMSLOTS tr = (Ok r, tr') ->
      num_memslots P v tr = (Ok r, tr'))) /\
  (forall cap r tr', check_extension P v cap tr = (Ok r, tr') ->
                     r = 0 \/ 0 < r) /\
  (forall e tr',
     (check_extension P v KVM_CAP_NR_VCPUS tr = (Thrown e, tr') ->
      num_vcpus P v tr = (Thrown e, tr')) /\
     (check_extension P v KVM_CAP_MAX_VCPUS tr = (Thrown e, tr') ->
      max_vcpus P v tr = (Thrown e, tr')) /\
     (check_extension P v KVM_CAP_NR_MEMSLOTS tr = (Thrown e, tr') ->
      num_memslots P v tr = (Thrown e, tr'))).
Proof.
  unfold num_vcpus, max_vcpus, num_memslots, bind.
  split; [|split; [|split; [|split; [|split]]]].
  - intros tr' Hc. now rewrite Hc.
  - intros tr' Hc. now rewrite Hc.
  - intros tr' Hc. now rewrite Hc.
  - intros r tr' Hr.
    assert (Hgt : (r >? 0) = true) by (apply Z.gtb_lt; lia).
    repeat split; intros Hc; rewrite Hc, Hgt; reflexivity.
  - intros cap r tr' Hc. apply check_extension_nonneg in Hc. lia.
  - intros e tr'. repeat split; intros Hc; now rewrite Hc.
Qed.

End KvmFacts.

(** On [kvm_host], which answers the size query with 12288 and the
    creation request with 5, the root issues both requests on its
    descriptor 3; the machine owns descriptor 5 and caches 12288, the value
    the size query of the root returns there. *)
Lemma system_vm_caches_mmap_size_witness :
  let s := {| Kvm.fd_ := 3; Kvm.closed_ := false |} in
  exists m,
    Kvm.system_vm Kvm.kvm_host s []
    = (Utility.Ok m, [Utility.Sys_ioctl 3 44548 0; Utility.Sys_ioctl 3 44545 0]) /\
    Kvm.vcpu_mmap_size Kvm.kvm_host s []
    = (Utility.Ok (Kvm.mmap_size m), [Utility.Sys_ioctl 3 44548 0]) /\
    Kvm.mmap_size m = 12288 /\
    Kvm.m_fd m = 5.
Proof.
  intros s.
  destruct (system_vm_caches_mmap_size Kvm.kvm_host s []) as [Hvm _].
  destruct Hvm as (m & Hsys & Hq & _ & _ & Hsize & Hfd);
    [simpl; lia|simpl; lia|].
  exists m. split; [exact Hsys|]. split; [exact Hq|]. split.
  - apply Hsize. unfold Ints.is_int, Ints.INT_MIN, Ints.INT_MAX. simpl. lia.
  - apply Hfd. unfold Ints.is_int, Ints.INT_MIN, Ints.INT_MAX. simpl. lia.
Defined.

(** On [kvm_host], which reports every capability as 0, the defaults 4 and
    32 come back; on [kvm_host_caps] the reported values 9, 66 and 10 do. *)
Lemma limit_queries_default_witness :
  let v := {| Kvm.m_fd := 5; Kvm.m_mmap_size := 12288 |} in
  fst (Kvm.num_vcpus Kvm.kvm_host v []) = Utility.Ok 4 /\
  fst (Kvm.num_memslots Kvm.kvm_host v []) = Utility.Ok 32 /\
  Kvm.max_vcpus Kvm.kvm_host v []
  = Kvm.num_vcpus Kvm.kvm_host v [Utility.Sys_ioctl 5 44547 66] /\
  fst (Kvm.num_vcpus Kvm.kvm_host_caps v []) = Utility.Ok 9 /\
  fst (Kvm.max_vcpus Kvm.kvm_host_caps v []) = Utility.Ok 66 /\
  fst (Kvm.num_memslots Kvm.kvm_host_caps v []) = Utility.Ok 10.
Proof.
  intros v.
  destruct (limit_queries_default Kvm.kvm_host v [])
    as (Hn & Hm & Hs & _).
  destruct (limit_queries_default Kvm.kvm_host_caps v [])
    as (_ & _ & _ & Hpos & _).
  destruct (Hpos 9 [Utility.Sys_ioctl 5 44547 9] eq_refl) as (Hn9 & _ & _).
  destruct (Hpos 66 [Utility.Sys_ioctl 5 44547 66] eq_refl) as (_ & Hm66 & _).
  destruct (Hpos 10 [Utility.Sys_ioctl 5 44547 10] eq_refl) as (_ & _ & Hs10).
  split; [|split; [|split; [|split; [|split]]]].
  - now rewrite (Hn [Utility.Sys_ioctl 5 44547 9] eq_refl).
  - now rewrite (Hs [Utility.Sys_ioctl 5 44547 10] eq_refl).
  - exact (Hm [Utility.Sys_ioctl 5 44547 66] eq_refl).
  - now rewrite (Hn9 eq_refl).
  - now rewrite (Hm66 eq_refl).
  - now rewrite (Hs10 eq_refl).
Defined.

(** C5. A second [close()] is not a no-op: [system::close] does not test
    [closed_], so each call issues the platform close. Closing an open
    handle twice issues two close calls on the same descriptor; and when the
    first [close()] throws, [closed_] stays clear and the destructor issues
    the close a second time. *)
Theorem second_close_closes_again :
  let s := {| Kvm.fd_ := 3; Kvm.closed_ := false |} in
  (exists s2 tr,
      Utility.bind (Kvm.system_close (Utility.always 0) s)
                   (Kvm.system_close (Utility.always 0)) []
      = (Utility.Ok s2, tr) /\
      Utility.closes_of 3 tr = 2%nat) /\
  (exists e tr1 tr2,
      Kvm.system_close Kvm.close_fails_once s [] = (Utility.Thrown e, tr1) /\
      Kvm.system_dtor Kvm.close_fails_once s tr1 = (Utility.Ok tt, tr2) /\
      Utility.closes_of 3 tr2 = 2%nat).
Proof.
  intros s. split.
  - eexists _, _. split; reflexivity.
  - eexists _, _, _. repeat split; reflexivity.
Qed.

(** ** FAM records *)

Section FamFacts.
Import Ints Fam.
Context {E : Type}.
Implicit Types (h : gmap loc (block E)) (b : block E) (this : FamStruct).

Lemma with_entries_id b : with_entries b (blk_entries b) = b.
Proof. now destruct b. Qed.

Lemma overwrite_nil o (es : list E) : overwrite o [] es = es.
Proof. unfold overwrite. simpl. rewrite Nat.add_0_r. apply take_drop. Qed.

Lemma length_overwrite o (xs es : list E) :
  (o + length xs <= length es)%nat -> length (overwrite o xs es) = length es.
Proof.
  intros Hle. unfold overwrite.
  rewrite !length_app, length_take, length_drop. lia.
Qed.

(** *** Dereferencing a live record *)

Lemma deref_live this l b h :
  ptr_ this = Some l -> h !! l = Some b -> deref this h = Some ((l, b), h).
Proof. intros Hp Hl. unfold deref. now rewrite Hp, Hl. Qed.

Lemma size_live this l b n h :
  ptr_ this = Some l -> h !! l = Some b -> blk_header b !! 0%nat = Some n ->
  size this h = Some (n, h).
Proof.
  intros Hp Hl Hn. unfold size, hbind. rewrite (deref_live _ _ _ _ Hp Hl).
  simpl. now rewrite Hn.
Qed.

Lemma entries_live c this l b h :
  ptr_ this = Some l -> h !! l = Some b ->
  entries c this h = Some ({| p_loc := l; p_off := 0; p_const := c |}, h).
Proof.
  intros Hp Hl. unfold entries, hbind. now rewrite (deref_live _ _ _ _ Hp Hl).
Qed.

Lemma end_live c this l b n h :
  ptr_ this = Some l -> h !! l = Some b -> blk_header b !! 0%nat = Some n ->
  (p <- entries c this ;; k <- size this ;; hret (advance p k))%heap h
  = Some ({| p_loc := l; p_off := n; p_const := c |}, h).
Proof.
  intros Hp Hl Hn. unfold hbind.
  rewrite (entries_live c _ _ _ _ Hp Hl), (size_live _ _ _ _ _ Hp Hl Hn).
  reflexivity.
Qed.

(** *** Reading a range of elements *)

Lemma ptr_read_live l off c b x h :
  h !! l = Some b -> 0 <= off -> blk_entries b !! Z.to_nat off = Some x ->
  ptr_read {| p_loc := l; p_off := off; p_const := c |} h = Some (x, h).
Proof.
  intros Hl Hoff Hx. unfold ptr_read. simpl. rewrite Hl.
  destruct (decide (0 <= off)); [|lia]. now rewrite Hx.
Qed.

Lemma read_n_live k : forall off l c b h,
  h !! l = Some b -> 0 <= off ->
  (Z.to_nat off + k <= length (blk_entries b))%nat ->
  read_n k {| p_loc := l; p_off := off; p_const := c |} h
  = Some (take k (drop (Z.to_nat off) (blk_entries b)), h).
Proof.
  induction k as [|k IH]; intros off l c b h Hl Hoff Hlen.
  - reflexivity.
  - destruct (lookup_lt_is_Some_2 (blk_entries b) (Z.to_nat off)) as [x Hx]; [lia|].
    cbn [read_n]. unfold hbind.
    rewrite (ptr_read_live _ _ _ _ _ _ Hl Hoff Hx).
    unfold advance. cbn [p_loc p_off p_const].
    rewrite (IH (off + 1) l c b h Hl) by lia.
    unfold hret. rewrite (drop_S _ _ _ Hx).
    replace (Z.to_nat (off + 1)) with (S (Z.to_nat off)) by lia.
    reflexivity.
Qed.

Lemma elements_live this l b n h :
  ptr_ this = Some l -> h !! l = Some b -> well_formed b n ->
  elements this h = Some (take (Z.to_nat n) (blk_entries b), h).
Proof.
  intros Hp Hl (Hn & Hrange & Hlen). unfold elements, hbind.
  unfold begin_const, end_const.
  rewrite (entries_live true _ _ _ _ Hp Hl).
  rewrite (end_live true _ _ _ _ _ Hp Hl Hn).
  unfold iterate, same_array. cbn [p_loc p_off].
  destruct (decide (l = l /\ 0 <= n)) as [_|Hne]; [|exfalso; apply Hne; lia].
  rewrite (read_n_live _ 0 l true b h Hl) by lia.
  now rewrite Z.sub_0_r.
Qed.

(** *** Storing through a pointer *)

Lemma ptr_write_live l off b v h :
  h !! l = Some b -> 0 <= off ->
  (Z.to_nat off < length (blk_entries b))%nat ->
  ptr_write {| p_loc := l; p_off := off; p_const := false |} v h
  = Some (tt, <[l := with_entries b (<[Z.to_nat off := v]> (blk_entries b))]> h).
Proof.
  intros Hl Hoff Hlen. unfold ptr_write. cbn [p_loc p_off p_const]. rewrite Hl.
  destruct (decide _) as [_|Hne]; [reflexivity|]. exfalso. apply Hne. lia.
Qed.

(** A store through a pointer to const is ill-formed. *)
Lemma ptr_write_const p v h : p_const p = true -> ptr_write p v h = None.
Proof. intros Hc. unfold ptr_write. now rewrite Hc. Qed.

(** A store leaves every other allocation as it was. *)
Lemma ptr_write_other p v h h' l :
  ptr_write p v h = Some (tt, h') -> l <> p_loc p -> h' !! l = h !! l.
Proof.
  unfold ptr_write. destruct (p_const p); [discriminate|].
  destruct (h !! p_loc p) as [b|]; [|discriminate].
  destruct (decide _); [|discriminate].
  intros Heq Hne. inversion Heq; subst. now rewrite lookup_insert_ne.
Qed.

(** *** [std::copy_if] *)

(** With the predicate that is always true, [copy_if] over the values
    [xs] writes [xs], unchanged and in order, from the destination on. *)
Lemma copy_if_values_all (xs : list E) : forall off l b h,
  h !! l = Some b -> 0 <= off ->
  (Z.to_nat off + length xs <= length (blk_entries b))%nat ->
  copy_if_values xs {| p_loc := l; p_off := off; p_const := false |}
                 (fun _ => true) h
  = Some ({| p_loc := l; p_off := off + Z.of_nat (length xs); p_const := false |},
          <[l := with_entries b (overwrite (Z.to_nat off) xs (blk_entries b))]> h).
Proof.
  induction xs as [|x xs IH]; intros off l b h Hl Hoff Hlen.
  - cbn [copy_if_values length]. unfold hret.
    rewrite overwrite_nil, with_entries_id, (insert_id h l b Hl), Z.add_0_r.
    reflexivity.
  - cbn [copy_if_values length] in *. unfold hbind.
    rewrite (ptr_write_live _ _ _ x _ Hl Hoff) by lia.
    unfold advance. cbn [p_loc p_off p_const].
    set (b1 := with_entries b (<[Z.to_nat off := x]> (blk_entries b))).
    rewrite (IH (off + 1) l b1 (<[l := b1]> h)).
    + rewrite insert_insert_eq. do 2 f_equal.
      * f_equal. lia.
      * f_equal. unfold b1, with_entries, overwrite. cbn [blk_units blk_header blk_entries].
        f_equal.
        replace (Z.to_nat (off + 1)) with (S (Z.to_nat off)) by lia.
        rewrite (take_S_r _ _ x)
          by (apply list_lookup_insert_eq; lia).
        rewrite take_insert_ge by lia.
        rewrite drop_insert_lt by lia.
        rewrite <- app_assoc. cbn [app length].
        now replace (S (Z.to_nat off) + length xs)%nat
          with (Z.to_nat off + S (length xs))%nat by lia.
    + apply lookup_insert_eq.
    + lia.
    + unfold b1. cbn [with_entries blk_entries]. rewrite length_insert. lia.
Qed.

(** Reading the source through pointers into another allocation gives
    [copy_if] the values that allocation holds. *)
Lemma copy_if_pointers_values (pred : E -> bool) k : forall so ls cs bs d h,
  h !! ls = Some bs -> p_loc d <> ls -> 0 <= so ->
  (Z.to_nat so + k <= length (blk_entries bs))%nat ->
  copy_if_pointers k {| p_loc := ls; p_off := so; p_const := cs |} d pred h
  = copy_if_values (take k (drop (Z.to_nat so) (blk_entries bs))) d pred h.
Proof.
  induction k as [|k IH]; intros so ls cs bs d h Hs Hne Hso Hlen.
  - reflexivity.
  - destruct (lookup_lt_is_Some_2 (blk_entries bs) (Z.to_nat so)) as [x Hx]; [lia|].
    rewrite (drop_S _ _ _ Hx). cbn [take copy_if_pointers copy_if_values].
    unfold hbind at 1. rewrite (ptr_read_live _ _ _ _ _ _ Hs Hso Hx).
    unfold advance at 1. cbn [p_loc p_off p_const].
    replace (S (Z.to_nat so)) with (Z.to_nat (so + 1)) by lia.
    destruct (pred x).
    + unfold hbind. destruct (ptr_write d x h) as [[[] h1]|] eqn:Hw; [|reflexivity].
      apply IH; [|exact Hne|lia|lia].
      rewrite (ptr_write_other _ _ _ _ ls Hw); [exact Hs|congruence].
    + apply IH; [exact Hs|exact Hne|lia|lia].
Qed.

(** *** The constructors *)

Lemma fresh_not_live h : h !! fresh (dom h) = None.
Proof. apply not_elem_of_dom, is_fresh. Qed.

Lemma fresh_ne_live h l b : h !! l = Some b -> fresh (dom h) <> l.
Proof. intros Hl Heq. rewrite <- Heq, fresh_not_live in Hl. discriminate. Qed.

Lemma store_header_live this l b i v h :
  ptr_ this = Some l -> h !! l = Some b -> (i < length (blk_header b))%nat ->
  store_header this i v h
  = Some (tt, <[l := {| blk_units := blk_units b;
                        blk_header := <[i := v]> (blk_header b);
                        blk_entries := blk_entries b |}]> h).
Proof.
  intros Hp Hl Hi. unfold store_header, hbind.
  rewrite (deref_live _ _ _ _ Hp Hl).
  destruct (decide _); [reflexivity|lia].
Qed.

Section ClassFacts.
Variable C : fam_class E.

Lemma sized_spec n h :
  header_ok C n ->
  sized C n h
  = Some ({| ptr_ := Some (fresh (dom h)) |},
          <[fresh (dom h) := sized_block C n]> h).
Proof.
  unfold header_ok, sized, sized_block, FamStruct_ctor.
  set (m := count_param C n). set (u := to_size_t (units_for C m)).
  set (l := fresh (dom h)). intros Hhdr.
  unfold hbind.
  rewrite (store_header_live {| ptr_ := Some l |} l (zeroed (lay C) u)
             0 (to_u32 m) _ eq_refl (lookup_insert_eq _ _ _)).
  2:{ unfold zeroed; cbn [blk_header]. rewrite length_replicate.
      destruct (clears_flags C); lia. }
  rewrite insert_insert_eq. cbn [zeroed blk_units blk_header blk_entries].
  destruct (clears_flags C).
  - erewrite (store_header_live {| ptr_ := Some l |} l _ 1 0 _ eq_refl
                (lookup_insert_eq _ _ _)).
    2:{ cbn [blk_header]. rewrite length_insert, length_replicate. lia. }
    rewrite insert_insert_eq. reflexivity.
  - reflexivity.
Qed.

Lemma sized_block_count n :
  header_ok C n ->
  blk_header (sized_block C n) !! 0%nat = Some (to_u32 (count_param C n)).
Proof.
  unfold header_ok, sized_block. cbn [blk_header]. intros Hhdr.
  destruct (clears_flags C).
  - rewrite list_lookup_insert_ne by lia.
    apply list_lookup_insert_eq. rewrite length_replicate. lia.
  - apply list_lookup_insert_eq. rewrite length_replicate. lia.
Qed.

(** The header of a constructed record is zero but for the count. *)
Lemma sized_block_header n :
  blk_header (sized_block C n)
  = <[0%nat := to_u32 (count_param C n)]>
      (replicate (length (blk_header (sized_block C n))) 0).
Proof.
  unfold sized_block. cbn [blk_header].
  destruct (clears_flags C); unfold id.
  - rewrite !length_insert, length_replicate.
    rewrite list_insert_insert_ne by lia.
    now rewrite insert_replicate.
  - now rewrite length_insert, length_replicate.
Qed.

(** [from_range] writes the values its range yields over the zeroed
    array of a record sized for the distance of the range. *)
Lemma from_range_spec r xs h :
  let n := distance r in
  let l := fresh (dom h) in
  let d := {| p_loc := l; p_off := 0; p_const := false |} in
  header_ok C n ->
  copy_if r d (fun _ => true) (<[l := sized_block C n]> h)
  = copy_if_values xs d (fun _ => true) (<[l := sized_block C n]> h) ->
  (length xs <= length (blk_entries (sized_block C n)))%nat ->
  from_range C r h
  = Some ({| ptr_ := Some l |},
          <[l := with_entries (sized_block C n)
                   (overwrite 0 xs (blk_entries (sized_block C n)))]> h).
Proof.
  intros n l d Hhdr Hcopy Hroom. unfold from_range, hbind.
  rewrite (sized_spec _ _ Hhdr). fold n l.
  rewrite (entries_live false {| ptr_ := Some l |} l (sized_block C n) _
             eq_refl (lookup_insert_eq _ _ _)).
  fold d. rewrite Hcopy. unfold d.
  rewrite (copy_if_values_all xs 0 l (sized_block C n) _
             (lookup_insert_eq _ _ _));
    [|lia|change (Z.to_nat 0) with 0%nat; exact Hroom].
  rewrite insert_insert_eq. reflexivity.
Qed.

Lemma take_overwrite_0 (xs es : list E) :
  take (length xs) (overwrite 0 xs es) = xs.
Proof. unfold overwrite. rewrite take_0. cbn [app]. apply take_app_length. Qed.

Lemma sized_block_entries n :
  count_param C n = n ->
  blk_entries (sized_block C n)
  = replicate (capacity (lay C) (to_size_t (units_for C n))) (value_zero (lay C)).
Proof. intros Hn. unfold sized_block. cbn [blk_entries]. now rewrite Hn. Qed.

(** The block [from_range] leaves for [Z.to_nat n] values is a
    well-formed record of count [n] that holds those values. *)
Lemma written_block n xs :
  0 <= n < UINT32_MOD -> adequate C n -> length xs = Z.to_nat n ->
  let b' := with_entries (sized_block C n)
              (overwrite 0 xs (blk_entries (sized_block C n))) in
  well_formed b' n /\ take (Z.to_nat n) (blk_entries b') = xs.
Proof.
  intros Hn (Hparam & Hhdr & Hroom) Hlen b'.
  assert (Hes : length (blk_entries b') = length (blk_entries (sized_block C n))).
  { unfold b'. cbn [with_entries blk_entries]. apply length_overwrite.
    rewrite (sized_block_entries _ Hparam), length_replicate. lia. }
  split; [split; [|split]|].
  - unfold b'. cbn [with_entries blk_header].
    rewrite (sized_block_count _ Hhdr), Hparam. f_equal. now apply to_u32_small.
  - exact Hn.
  - rewrite Hes, (sized_block_entries _ Hparam), length_replicate. exact Hroom.
  - unfold b'. cbn [with_entries blk_entries]. rewrite <- Hlen.
    apply take_overwrite_0.
Qed.

(** *** The claims, for a class that holds the count *)

Lemma allocate_generic n :
  0 <= n < UINT32_MOD -> adequate C n -> allocate_ok C n.
Proof.
  intros Hn (Hparam & Hhdr & Hroom) h.
  set (l := fresh (dom h)). set (b := sized_block C n).
  assert (Hl : (<[l := b]> h : gmap loc (block E)) !! l = Some b)
    by apply lookup_insert_eq.
  assert (Hcount : blk_header b !! 0%nat = Some n).
  { unfold b. rewrite (sized_block_count _ Hhdr), Hparam.
    f_equal. now apply to_u32_small. }
  exists {| ptr_ := Some l |}, l, b.
  split; [exact (sized_spec _ _ Hhdr)|].
  split; [reflexivity|]. split; [apply fresh_not_live|].
  split.
  { unfold b. rewrite sized_block_header at 1. rewrite Hparam.
    f_equal. now apply to_u32_small. }
  split; [apply lookup_lt_Some in Hcount; lia|].
  split.
  { unfold b. rewrite (sized_block_entries _ Hparam). apply Forall_replicate.
    reflexivity. }
  split; [exact (size_live {| ptr_ := Some l |} _ _ _ _ eq_refl Hl Hcount)|].
  exists {| p_loc := l; p_off := 0; p_const := false |},
         {| p_loc := l; p_off := n; p_const := false |},
         (take (Z.to_nat n) (blk_entries b)).
  split; [exact (entries_live false {| ptr_ := Some l |} _ _ _ eq_refl Hl)|].
  split; [exact (end_live false {| ptr_ := Some l |} _ _ _ _ eq_refl Hl Hcount)|].
  split; [cbn [p_off]; lia|].
  assert (Hcap : (Z.to_nat n <= length (blk_entries b))%nat).
  { unfold b. rewrite (sized_block_entries _ Hparam), length_replicate.
    exact Hroom. }
  split.
  { unfold iterate, same_array. cbn [p_loc p_off].
    destruct (decide (l = l /\ 0 <= n)) as [_|Hne]; [|exfalso; apply Hne; lia].
    rewrite (read_n_live _ 0 l false b _ Hl) by lia.
    now rewrite Z.sub_0_r. }
  split; [rewrite length_take_le by exact Hcap; lia|].
  intros ->. reflexivity.
Qed.

Lemma from_range_generic (xs : list E) :
  Z.of_nat (length xs) < UINT32_MOD ->
  adequate C (Z.of_nat (length xs)) ->
  from_range_ok C xs.
Proof.
  intros Hlt Had h. set (n := Z.of_nat (length xs)) in *.
  assert (Hn : 0 <= n < UINT32_MOD) by (unfold n; lia).
  assert (Hlen : length xs = Z.to_nat n) by (unfold n; lia).
  destruct (written_block n xs Hn Had Hlen) as [Hwf Htake].
  destruct Had as (Hparam & Hhdr & Hroom).
  set (l := fresh (dom h)).
  set (b' := with_entries (sized_block C n)
               (overwrite 0 xs (blk_entries (sized_block C n)))) in *.
  assert (Hl : (<[l := b']> h : gmap loc (block E)) !! l = Some b')
    by apply lookup_insert_eq.
  exists {| ptr_ := Some l |}, l, b'.
  split.
  { apply (from_range_spec (Container xs) xs h Hhdr eq_refl).
    change (distance (Container xs)) with n.
    rewrite (sized_block_entries _ Hparam), length_replicate. lia. }
  split; [reflexivity|]. split; [apply fresh_not_live|].
  split; [exact (size_live {| ptr_ := Some l |} _ _ _ _ eq_refl Hl (proj1 Hwf))|].
  rewrite (elements_live {| ptr_ := Some l |} _ _ _ _ eq_refl Hl Hwf). now rewrite Htake.
Qed.

(** The copy constructor is [from_range] over the pointers that span the
    elements of [other]. *)
Lemma copy_ctor_spec other l b n h :
  ptr_ other = Some l -> h !! l = Some b -> well_formed b n ->
  adequate C n ->
  let xs := take (Z.to_nat n) (blk_entries b) in
  copy_ctor C other h
  = Some ({| ptr_ := Some (fresh (dom h)) |},
          <[fresh (dom h) :=
              with_entries (sized_block C n)
                (overwrite 0 xs (blk_entries (sized_block C n)))]> h).
Proof.
  intros Hp Hl (Hcount & Hn & Hlen) (Hparam & Hhdr & Hroom) xs.
  unfold copy_ctor, hbind, begin_const, end_const.
  rewrite (entries_live true _ _ _ _ Hp Hl).
  rewrite (end_live true _ _ _ _ _ Hp Hl Hcount).
  set (first := {| p_loc := l; p_off := 0; p_const := true |}).
  set (last := {| p_loc := l; p_off := n; p_const := true |}).
  assert (Hd : @distance E (Pointers first last) = n) by (cbn; lia).
  pose proof (from_range_spec (Pointers first last) xs h) as Hspec.
  cbv zeta in Hspec. rewrite Hd in Hspec. apply Hspec; clear Hspec.
  - exact Hhdr.
  - unfold copy_if, same_array, first, last. cbn [p_loc p_off].
    destruct (decide (l = l /\ 0 <= n)) as [_|Hne]; [|exfalso; apply Hne; lia].
    rewrite Z.sub_0_r.
    rewrite (copy_if_pointers_values _ _ 0 l true b); try lia.
    + reflexivity.
    + rewrite lookup_insert_ne; [exact Hl|]. now apply fresh_ne_live with b.
    + cbn [p_loc]. now apply fresh_ne_live with b.
  - unfold xs. rewrite length_take_le by exact Hlen.
    rewrite (sized_block_entries _ Hparam), length_replicate. exact Hroom.
Qed.


(** The count a constructed record reports is the requested one
    converted to the parameter type and then to the 32-bit count field. *)
Lemma sized_size n h :
  header_ok C n ->
  exists this h',
    sized C n h = Some (this, h') /\
    size this h' = Some (to_u32 (count_param C n), h').
Proof.
  intros Hhdr. eexists _, _. split; [exact (sized_spec _ _ Hhdr)|].
  apply (size_live {| ptr_ := Some (fresh (dom h)) |} _ _ _ _ eq_refl
           (lookup_insert_eq _ _ _)).
  exact (sized_block_count _ Hhdr).
Qed.

Lemma from_range_size (xs : list E) h :
  let n := Z.of_nat (length xs) in
  header_ok C n ->
  (length xs <= length (blk_entries (sized_block C n)))%nat ->
  exists this h',
    from_range C (Container xs) h = Some (this, h') /\
    size this h' = Some (to_u32 (count_param C n), h').
Proof.
  intros n Hhdr Hroom. eexists _, _.
  split; [exact (from_range_spec (Container xs) xs h Hhdr eq_refl Hroom)|].
  apply (size_live {| ptr_ := Some (fresh (dom h)) |} _ _ _ _ eq_refl
           (lookup_insert_eq _ _ _)).
  exact (sized_block_count _ Hhdr).
Qed.
End ClassFacts.

(** *** Moving *)

Lemma destroy_null h : destroy {| ptr_ := None |} h = Some (tt, h).
Proof. reflexivity. Qed.

Lemma destroy_live this l b h :
  ptr_ this = Some l -> h !! l = Some b ->
  destroy this h = Some (tt, delete l h).
Proof. intros Hp Hl. unfold destroy. now rewrite Hp, Hl. Qed.

Lemma size_null h : size {| ptr_ := None |} h = None.
Proof. reflexivity. Qed.

Lemma elements_null h : elements {| ptr_ := None |} h = None.
Proof. reflexivity. Qed.
End FamFacts.

(** *** The classes hold every 32-bit count *)

Ltac fam_arith :=
  unfold Fam.adequate, Fam.header_ok, Fam.header_words, Fam.capacity,
    Fam.alloc_bytes in *;
  cbn [Fam.lay Fam.units_for Fam.count_param Fam.clears_flags
       Fam.sizeof_Buffer Fam.offsetof_entries Fam.sizeof_value_type
       Fam.MsrIndexList Fam.MsrFeatureList Fam.MsrList Fam.CpuidList
       Fam.kvm_msr_list Fam.kvm_msrs Fam.kvm_cpuid2] in *;
  unfold Ints.to_size_t, Ints.to_u32, Ints.SIZE_MOD, Ints.UINT32_MOD in *;
  repeat rewrite (Z.mod_small _ (2 ^ 64)) by lia;
  repeat rewrite (Z.mod_small _ (2 ^ 32)) by lia;
  Z.div_mod_to_equations.

Lemma MsrIndexList_adequate n :
  0 <= n < Ints.UINT32_MOD -> Fam.adequate Fam.MsrIndexList n.
Proof.
  intros Hn. fam_arith. lia.
Qed.

Lemma MsrList_adequate n :
  0 <= n < Ints.UINT32_MOD -> Fam.adequate Fam.MsrList n.
Proof.
  intros Hn. fam_arith. lia.
Qed.

Lemma CpuidList_adequate n :
  0 <= n < Ints.UINT32_MOD -> Fam.adequate Fam.CpuidList n.
Proof.
  intros Hn. fam_arith. lia.
Qed.

(** *** Sized construction *)

(** C2 (as amended). For every count [n] that the 32-bit count field of the
    header represents, [0 <= n < 2^32], constructing an index list, a
    feature list, a register-value list or a cpuid list of capacity [n]
    yields a fresh zero-initialised buffer whose count field is [n], whose
    [size()] is [n], and whose [begin()] to [end()] spans exactly [n]
    elements; for [n = 0] the range is empty, [begin() == end()], and no
    error is raised. *)
Theorem allocate_count_field (n : Z) :
  0 <= n < 2 ^ 32 ->
  Fam.allocate_ok Fam.MsrIndexList n /\
  Fam.allocate_ok Fam.MsrFeatureList n /\
  Fam.allocate_ok Fam.MsrList n /\
  Fam.allocate_ok Fam.CpuidList n.
Proof.
  intros Hn.
  split; [|split; [|split]]; apply allocate_generic; try exact Hn.
  - now apply MsrIndexList_adequate.
  - now apply MsrIndexList_adequate.
  - now apply MsrList_adequate.
  - now apply CpuidList_adequate.
Qed.

(** Capacities 0 and 3 are such counts. *)
Lemma allocate_count_field_witness :
  0 <= 3 < 2 ^ 32 /\
  Fam.allocate_ok Fam.MsrList 3 /\ Fam.allocate_ok Fam.MsrList 0.
Proof.
  split; [lia|]. split.
  - apply (allocate_count_field 3). lia.
  - apply (allocate_count_field 0). lia.
Defined.

(** A [size_t] count of [2^32] does not fit the count field: a
    register-value list constructed with it reports [size() == 0]. *)
Lemma allocate_truncates_count : ~ Fam.allocate_ok Fam.MsrList (2 ^ 32).
Proof.
  intros Hok.
  destruct (Hok ∅) as (this & l & b & Hsized & _ & _ & _ & _ & _ & Hsize & _).
  assert (Hhdr : Fam.header_ok Fam.MsrList (2 ^ 32)) by (fam_arith; lia).
  destruct (sized_size Fam.MsrList (2 ^ 32) ∅ Hhdr) as (this0 & h0 & Hs0 & Hsize0).
  rewrite Hs0 in Hsized. injection Hsized as Hthis Hheap.
  rewrite <- Hthis, <- Hheap, Hsize0 in Hsize.
  injection Hsize as Hcount. revert Hcount.
  unfold Ints.to_u32, Ints.UINT32_MOD. cbn [Fam.count_param Fam.MsrList].
  unfold Ints.to_size_t, Ints.SIZE_MOD.
  rewrite (Z.mod_small (2 ^ 32) (2 ^ 64)) by lia.
  rewrite Z.mod_same by lia. lia.
Qed.

(** *** Construction from a range *)

(** C6 (as amended). For every input sequence [e0, ..., ek] of fewer than
    [2^32] elements, constructing a register-value list or a cpuid list from
    that range sets the count to the length of the range and copies every
    source element into the trailing array unchanged and in order (the copy
    predicate is always true: nothing is filtered or transformed), so that
    iterating the record yields exactly [e0, ..., ek]. *)
Theorem from_range_identity
  (xs : list Fam.kvm_msr_entry) (ys : list Fam.kvm_cpuid_entry2) :
  Z.of_nat (length xs) < 2 ^ 32 ->
  Z.of_nat (length ys) < 2 ^ 32 ->
  Fam.from_range_ok Fam.MsrList xs /\ Fam.from_range_ok Fam.CpuidList ys.
Proof.
  intros Hxs Hys. split; apply from_range_generic; try assumption.
  - apply MsrList_adequate. unfold Ints.UINT32_MOD. lia.
  - apply CpuidList_adequate. unfold Ints.UINT32_MOD. lia.
Qed.

(** The two entries of the MSR round trip, and two cpuid leaves. *)
Lemma from_range_identity_witness :
  let xs := [ {| Fam.msr_index := 372; Fam.msr_reserved := 0; Fam.msr_data := 0 |};
              {| Fam.msr_index := 373; Fam.msr_reserved := 0; Fam.msr_data := 1 |} ] in
  let ys := [ Fam.value_zero Fam.kvm_cpuid2 ] in
  Fam.from_range_ok Fam.MsrList xs /\ Fam.from_range_ok Fam.CpuidList ys.
Proof.
  intros xs ys. apply (from_range_identity xs ys); simpl; lia.
Defined.

(** A record built from a range of [2^32] entries reports [size() == 0]. *)
Lemma from_range_truncates (xs : list Fam.kvm_msr_entry) :
  Z.of_nat (length xs) = 2 ^ 32 -> ~ Fam.from_range_ok Fam.MsrList xs.
Proof.
  intros Hlen Hok.
  destruct (Hok ∅) as (this & l & b & Hfrom & _ & _ & Hsize & _).
  destruct (from_range_size Fam.MsrList xs ∅) as (this0 & h0 & Hf0 & Hsize0).
  - rewrite Hlen. fam_arith; lia.
  - rewrite sized_block_entries, length_replicate; rewrite Hlen.
    + apply Nat2Z.inj_le. rewrite Hlen. fam_arith; lia.
    + fam_arith; lia.
  - rewrite Hf0 in Hfrom. injection Hfrom as Hthis Hheap.
    rewrite <- Hthis, <- Hheap, Hsize0, Hlen in Hsize.
    injection Hsize as Hcount. revert Hcount.
    unfold Ints.to_u32, Ints.UINT32_MOD. cbn [Fam.count_param Fam.MsrList].
    unfold Ints.to_size_t, Ints.SIZE_MOD.
    rewrite (Z.mod_small (2 ^ 32) (2 ^ 64)) by lia.
    rewrite Z.mod_same by lia. lia.
Qed.

(** A range of [2^32] entries: the record built from it does not report
    the length of the range, and iterating it does not yield the range. *)
Lemma from_range_truncates_count :
  ~ Fam.from_range_ok Fam.MsrList
      (replicate (Z.to_nat (2 ^ 32)) (Fam.value_zero Fam.kvm_msrs)).
Proof.
  apply from_range_truncates.
  rewrite length_replicate. apply Z2Nat.id. apply Z.pow_nonneg. discriminate.
Qed.

(** *** Copying *)



(** *** Moving *)

Section MoveFacts.
Import Fam.
Context {E : Type}.

(** C7. Moving from a record leaves the destination holding the original
    allocation, with the same count and the same elements, and leaves the
    source with a null pointer: a state that must not be dereferenced
    ([size()] and iteration are undefined on it) and that is safe to
    destroy. The allocation is transferred, not duplicated: destroying
    source and destination releases it exactly once. Move assignment does
    the same, and releases the allocation the destination held before. *)
Theorem move_transfers_ownership
  (h : gmap loc (block E)) (src : FamStruct) (l : loc) (b : block E) (n : Z) :
  ptr_ src = Some l -> h !! l = Some b -> well_formed b n ->
  let xs := take (Z.to_nat n) (blk_entries b) in
  size src h = Some (n, h) /\
  elements src h = Some (xs, h) /\
  (let '(dst, src') := move_ctor src in
   ptr_ dst = Some l /\ ptr_ src' = None /\ h !! l = Some b /\
   size dst h = Some (n, h) /\
   elements dst h = Some (xs, h) /\
   size src' h = None /\ elements src' h = None /\
   destroy src' h = Some (tt, h) /\
   (destroy src' ;;; destroy dst)%heap h = Some (tt, delete l h)) /\
  (forall (a : FamStruct) la ba,
      ptr_ a = Some la -> h !! la = Some ba -> la <> l ->
      exists a' src',
        move_assign a src h = Some ((a', src'), delete la h) /\
        ptr_ a' = Some l /\ ptr_ src' = None /\
        delete la h !! l = Some b /\ delete la h !! la = None /\
        size a' (delete la h) = Some (n, delete la h) /\
        elements a' (delete la h) = Some (xs, delete la h)).
Proof.
  intros Hp Hl Hwf xs.
  split; [exact (size_live src _ _ _ _ Hp Hl (proj1 Hwf))|].
  split; [exact (elements_live src _ _ _ _ Hp Hl Hwf)|].
  split.
  - cbn [move_ctor].
    split; [exact Hp|]. split; [reflexivity|]. split; [exact Hl|].
    split; [exact (size_live {| ptr_ := ptr_ src |} _ _ _ _ Hp Hl (proj1 Hwf))|].
    split; [exact (elements_live {| ptr_ := ptr_ src |} _ _ _ _ Hp Hl Hwf)|].
    split; [reflexivity|]. split; [reflexivity|].
    split; [reflexivity|].
    unfold hbind. rewrite destroy_null.
    exact (destroy_live {| ptr_ := ptr_ src |} l b h Hp Hl).
  - intros a la ba Ha Hla Hne.
    exists {| ptr_ := Some l |}, {| ptr_ := None |}.
    assert (Hl' : delete la h !! l = Some b)
      by (rewrite lookup_delete_ne; [exact Hl|exact Hne]).
    split.
    { unfold move_assign, move_ctor, assign, hbind. cbn [ptr_].
      rewrite Hp.
      rewrite (destroy_live {| ptr_ := ptr_ a |} la ba h Ha Hla).
      reflexivity. }
    split; [reflexivity|]. split; [reflexivity|].
    split; [exact Hl'|]. split; [apply lookup_delete_eq|].
    split; [exact (size_live {| ptr_ := Some l |} _ _ _ _ eq_refl Hl' (proj1 Hwf))|].
    exact (elements_live {| ptr_ := Some l |} _ _ _ _ eq_refl Hl' Hwf).
Qed.
End MoveFacts.

(** The list of the two round-trip entries is moved out of [src]; then it
    is move-assigned over an empty list at location 2. *)
Lemma move_transfers_ownership_witness :
  let e0 := {| Fam.msr_index := 372; Fam.msr_reserved := 0; Fam.msr_data := 0 |} in
  let e1 := {| Fam.msr_index := 373; Fam.msr_reserved := 0; Fam.msr_data := 1 |} in
  let b := {| Fam.blk_units := 5; Fam.blk_header := [2; 0];
              Fam.blk_entries := [e0; e1] |} in
  let ba := {| Fam.blk_units := 1; Fam.blk_header := [0; 0];
               Fam.blk_entries := [] |} in
  let h : gmap Fam.loc (Fam.block Fam.kvm_msr_entry) :=
    {[ 1%positive := b; 2%positive := ba ]} in
  let src := {| Fam.ptr_ := Some 1%positive |} in
  Fam.elements (fst (Fam.move_ctor src)) h = Some ([e0; e1], h) /\
  Fam.ptr_ (snd (Fam.move_ctor src)) = None.
Proof.
  intros e0 e1 b ba h src.
  assert (Hl : h !! 1%positive = Some b) by reflexivity.
  assert (Hwf : Fam.well_formed b 2).
  { split; [reflexivity|]. split; [unfold Ints.UINT32_MOD; lia|]. simpl. lia. }
  destruct (move_transfers_ownership h src 1%positive b 2 eq_refl Hl Hwf)
    as (_ & _ & Hmove & _).
  destruct (Fam.move_ctor src) as [dst src'].
  destruct Hmove as (_ & Hnull & _ & _ & Hes & _).
  split; [exact Hes|exact Hnull].
Defined.

(** *** Allocation sizes *)

(** The register-value list is allocated exactly; the cpuid list is
    allocated [120 * n] bytes beyond the header and its [n] entries. *)
Lemma MsrList_allocation_exact n :
  0 <= n < 2 ^ 32 ->
  Fam.alloc_bytes Fam.kvm_msrs
    (Ints.to_size_t (Fam.units_for Fam.MsrList (Fam.count_param Fam.MsrList n)))
  = Fam.exact_bytes Fam.kvm_msrs n.
Proof. intros Hn. unfold Fam.exact_bytes. fam_arith. lia. Qed.

Lemma CpuidList_allocation n :
  0 <= n < 2 ^ 32 ->
  Fam.alloc_bytes Fam.kvm_cpuid2
    (Ints.to_size_t (Fam.units_for Fam.CpuidList (Fam.count_param Fam.CpuidList n)))
  = Fam.exact_bytes Fam.kvm_cpuid2 n + 120 * n.
Proof. intros Hn. unfold Fam.exact_bytes. fam_arith. lia. Qed.

(** C3. The allocation behind a record is not always
    [header_size + n * element_size]: a cpuid list of one entry is
    allocated as 42 [uint32_t] units, 168 bytes, where the header and one
    entry take 48, and holds room for four entries; and whatever the unit of
    its buffer, an interrupt-routing table of one entry is allocated as 25
    units, which is not the 56 bytes of its header and one entry. *)
Theorem cpuid_list_over_allocated :
  (exists this l b,
      Fam.sized Fam.CpuidList 1 ∅ = Some (this, <[l := b]> ∅) /\
      Fam.blk_units b = 42 /\
      Fam.alloc_bytes Fam.kvm_cpuid2 (Fam.blk_units b) = 168 /\
      Fam.exact_bytes Fam.kvm_cpuid2 1 = 48 /\
      length (Fam.blk_entries b) = 4%nat) /\
  (forall buffer,
      Fam.units_for (Fam.IrqRoutingList buffer) 1 = 25 /\
      Fam.alloc_bytes (Fam.kvm_irq_routing buffer)
        (Fam.units_for (Fam.IrqRoutingList buffer) 1)
      <> Fam.exact_bytes (Fam.kvm_irq_routing buffer) 1).
Proof.
  split.
  - exists {| Fam.ptr_ := Some (fresh (dom (∅ : gmap Fam.loc (Fam.block Fam.kvm_cpuid_entry2)))) |},
           (fresh (dom (∅ : gmap Fam.loc (Fam.block Fam.kvm_cpuid_entry2)))),
           (Fam.sized_block Fam.CpuidList 1).
    split; [apply sized_spec; fam_arith; lia|].
    repeat split.
  - intros buffer. split; [reflexivity|].
    unfold Fam.alloc_bytes, Fam.exact_bytes.
    cbn [Fam.units_for Fam.IrqRoutingList Fam.lay Fam.kvm_irq_routing
         Fam.sizeof_Buffer Fam.offsetof_entries Fam.sizeof_value_type].
    change (48 / 2) with 24. lia.
Qed.

(** *** The public surface of the index lists *)

Section SurfaceFacts.
Import Ints Fam.
Implicit Types (h : gmap loc (block Z)) (this : FamStruct).

Lemma deref_pure {E} (this : FamStruct) (h h' : gmap loc (block E)) x :
  deref this h = Some (x, h') -> h' = h.
Proof.
  unfold deref. destruct (ptr_ this) as [l|]; [|discriminate].
  destruct (h !! l); [|discriminate]. now intros [= _ <-].
Qed.

Lemma size_pure this h n h' : size this h = Some (n, h') -> h' = h.
Proof.
  unfold size, hbind. destruct (deref this h) as [[lb h1]|] eqn:Hd; [|discriminate].
  apply deref_pure in Hd. subst h1.
  destruct (blk_header (snd lb) !! 0%nat); [|discriminate]. now intros [= _ <-].
Qed.

Lemma entries_pure c this h p h' :
  entries c this h = Some (p, h') -> h' = h /\ p_const p = c.
Proof.
  unfold entries, hbind. destruct (deref this h) as [[lb h1]|] eqn:Hd; [|discriminate].
  apply deref_pure in Hd. subst h1. now intros [= <- <-].
Qed.

Lemma end_pure c this h p h' :
  (p <- entries c this ;; n <- size this ;; hret (advance p n))%heap h
  = Some (p, h') ->
  h' = h /\ p_const p = c.
Proof.
  unfold hbind at 1. destruct (entries c this h) as [[q h1]|] eqn:He; [|discriminate].
  apply entries_pure in He as [-> Hc].
  unfold hbind. destruct (size this h) as [[n h1]|] eqn:Hs; [|discriminate].
  apply size_pure in Hs. subst h1. intros [= <- <-]. now split.
Qed.

(** A member call hands out a pointer and changes nothing; the pointer is
    to const exactly when the member is const-qualified. *)
Lemma call_pure a this h p h' :
  call a this h = Some (p, h') -> h' = h /\ p_const p = const_qualified a.
Proof.
  destruct a; cbn [call const_qualified];
    unfold begin, end_, begin_const, end_const, cbegin, cend,
      begin_const, end_const;
    first [apply entries_pure | apply end_pure].
Qed.

Lemma ptr_read_pure p h (x : Z) h' : ptr_read p h = Some (x, h') -> h' = h.
Proof.
  unfold ptr_read. destruct (h !! p_loc p); [|discriminate].
  destruct (decide _); [|discriminate].
  destruct (_ !! _); [|discriminate]. now intros [= _ <-].
Qed.

(** C8 (as amended). The index and feature lists offer read-only
    iteration through their const-qualified members: [nmsrs()]/[size()],
    [empty()], every load, and everything that goes through
    [begin() const], [end() const], [cbegin()], [cend()] or
    [data() const] leaves the elements, the count and the rest of the
    heap as they were, and a store through a pointer one of these hands
    out is ill-formed. (The non-const [begin()], [end()], [data()] and
    [get()] hand out pointers a caller can store through.) *)
Theorem const_surface_read_only h this op :
  read_only op = true ->
  (forall r h', perform op this h = Some (r, h') -> h' = h) /\
  (forall a k v, op = Store a k v -> perform op this h = None).
Proof.
  intros Hro. split.
  - intros r h'. destruct op as [| |a k|a k v|v]; cbn [perform read_only] in *.
    + unfold hbind. destruct (size this h) as [[n h1]|] eqn:Hs; [|discriminate].
      apply size_pure in Hs. subst h1. now intros [= _ <-].
    + unfold empty, hbind. destruct (size this h) as [[n h1]|] eqn:Hs; [|discriminate].
      apply size_pure in Hs. subst h1. now intros [= _ <-].
    + unfold hbind. destruct (call a this h) as [[p h1]|] eqn:Hc; [|discriminate].
      apply call_pure in Hc as [-> _].
      destruct (ptr_read (advance p k) h) as [[x h1]|] eqn:Hr; [|discriminate].
      apply ptr_read_pure in Hr. subst h1. now intros [= _ <-].
    + unfold hbind. destruct (call a this h) as [[p h1]|] eqn:Hc; [|discriminate].
      apply call_pure in Hc as [-> Hconst].
      rewrite ptr_write_const; [discriminate|].
      cbn [advance p_const]. now rewrite Hconst.
    + discriminate Hro.
  - intros a k v ->. cbn [perform read_only] in *.
    unfold hbind. destruct (call a this h) as [[p h1]|] eqn:Hc; [|reflexivity].
    apply call_pure in Hc as [-> Hconst].
    rewrite ptr_write_const; [reflexivity|].
    cbn [advance p_const]. now rewrite Hconst.
Qed.

(** A default-constructed feature list holds 22 zero indices; a store
    through the pointer [begin()] returns puts 7 in the first. *)
Lemma store_through_begin :
  exists this h h',
    MsrFeatureList_default ∅ = Some (this, h) /\
    elements this h = Some (replicate 22 0, h) /\
    size this h = Some (22, h) /\
    perform (Store Begin 0 7) this h = Some (None, h') /\
    elements this h' = Some (7 :: replicate 21 0, h').
Proof.
  eexists _, _, _. split; [reflexivity|].
  split; [reflexivity|]. split; [reflexivity|].
  split; reflexivity.
Qed.
End SurfaceFacts.

(** On a feature list of 22 indices, loading the first index through
    [cbegin()] changes nothing, and storing through [cbegin()] is
    ill-formed. *)
Lemma const_surface_read_only_witness :
  let this := {| Fam.ptr_ := Some 1%positive |} in
  let h : gmap Fam.loc (Fam.block Z) :=
    {[ 1%positive := Fam.sized_block Fam.MsrFeatureList 22 ]} in
  Fam.read_only (Fam.Load Fam.CBegin 0) = true /\
  match Fam.perform (Fam.Load Fam.CBegin 0) this h with
  | Some (_, h') => h' = h
  | None => False
  end /\
  Fam.perform (Fam.Store Fam.CBegin 0 7) this h = None.
Proof.
  intros this h. split; [reflexivity|]. split.
  - destruct (Fam.perform (Fam.Load Fam.CBegin 0) this h) as [[r h']|] eqn:Hp.
    + exact (proj1 (const_surface_read_only h this (Fam.Load Fam.CBegin 0) eq_refl)
               r h' Hp).
    + discriminate Hp.
  - exact (proj2 (const_surface_read_only h this (Fam.Store Fam.CBegin 0 7) eq_refl)
             Fam.CBegin 0 7 eq_refl).
Defined.

(** The lists do have a public operation that changes an element: a store
    through the non-const [begin()]. *)
Lemma mutable_begin_changes_element : ~ Fam.immutable_surface.
Proof.
  intros Hsurf.
  destruct store_through_begin as (this & h & h' & _ & Hes & Hsz & Hst & Hes').
  destruct (Hsurf h this _ _ _ _ _ Hes Hsz Hst) as [Hsame _].
  rewrite Hes' in Hsame. discriminate Hsame.
Qed.

(** ** More of the KVM handles *)

Section KvmMoreFacts.
Import Ints Utility Kvm.
Variable P : platform.

(** A dispatch issues one platform call, whether it returns or throws. *)
Lemma ioctl_trace fd req arg tr :
  snd (ioctl P fd req arg tr) = tr ++ [Sys_ioctl fd req (default 0 arg)].
Proof.
  unfold ioctl, bind, sys_call, ret, throw.
  destruct (_ <? 0); reflexivity.
Qed.

(** X7. [system::vm] queries the size first and creates the machine second:
    when the size query fails, the error is thrown and no creation request
    is issued, so no machine descriptor is left behind; otherwise exactly
    the two requests are issued, in this order, on the descriptor of the
    root. No descriptor is closed. *)
Theorem system_vm_call_order (s : system) (tr : list syscall) :
  let c1 := Sys_ioctl (fd_ s) KVM_GET_VCPU_MMAP_SIZE 0 in
  let c2 := Sys_ioctl (fd_ s) KVM_CREATE_VM 0 in
  (sr_value (P tr c1) < 0 ->
     system_vm P s tr = (Thrown {| code := sr_errno (P tr c1) |}, tr ++ [c1])) /\
  (0 <= sr_value (P tr c1) -> snd (system_vm P s tr) = tr ++ [c1; c2]) /\
  (forall d, closes_of d (snd (system_vm P s tr)) = closes_of d tr).
Proof.
  intros c1 c2.
  assert (Hneg : sr_value (P tr c1) < 0 ->
                 system_vm P s tr
                 = (Thrown {| code := sr_errno (P tr c1) |}, tr ++ [c1])).
  { intros Hr. unfold system_vm, bind, vcpu_mmap_size.
    now rewrite (ioctl_thrown P (fd_ s) KVM_GET_VCPU_MMAP_SIZE None tr Hr). }
  assert (Hpos : 0 <= sr_value (P tr c1) ->
                 snd (system_vm P s tr) = tr ++ [c1; c2]).
  { intros Hr. unfold system_vm, bind, vcpu_mmap_size.
    rewrite (ioctl_ok P (fd_ s) KVM_GET_VCPU_MMAP_SIZE None tr Hr).
    cbn [default]. fold c1.
    pose proof (ioctl_trace (fd_ s) KVM_CREATE_VM None (tr ++ [c1])) as Htr.
    unfold create_vm.
    destruct (ioctl P (fd_ s) KVM_CREATE_VM None (tr ++ [c1])) as [[fd'|e] tr2];
      cbn [snd] in *; subst tr2; unfold ret; cbn [snd default];
      rewrite <- app_assoc; reflexivity. }
  split; [exact Hneg|]. split; [exact Hpos|].
  intros d. destruct (Z.lt_ge_cases (sr_value (P tr c1)) 0) as [Hr|Hr].
  - rewrite (Hneg Hr). simpl. rewrite closes_of_app. simpl. lia.
  - rewrite (Hpos Hr). rewrite closes_of_app. simpl. lia.
Qed.

(** X8. Whatever the kernel reports, a limit query that returns never
    returns 0: [num_vcpus()], [max_vcpus()] and [num_memslots()] are at
    least 1 (and fit an [unsigned]). *)
Theorem limits_are_positive (v : vm) (tr : list syscall) :
  (forall r tr', num_vcpus P v tr = (Ok r, tr') -> 1 <= r < UINT32_MOD) /\
  (forall r tr', max_vcpus P v tr = (Ok r, tr') -> 1 <= r < UINT32_MOD) /\
  (forall r tr', num_memslots P v tr = (Ok r, tr') -> 1 <= r < UINT32_MOD).
Proof.
  assert (Hdef : forall cap d tr0 r tr',
             1 <= d < UINT32_MOD ->
             bind (check_extension P v cap) (fun x => ret (if x >? 0 then x else d)) tr0
             = (Ok r, tr') ->
             1 <= r < UINT32_MOD).
  { intros cap d tr0 r tr' Hd. unfold bind.
    destruct (check_extension P v cap tr0) as [[x|e] tr1] eqn:Hc; [|discriminate].
    unfold check_extension, KvmFd_ioctl in Hc. apply ioctl_range in Hc.
    unfold ret. intros [= <- _].
    destruct (Z.gtb_spec x 0); lia. }
  split; [|split].
  - intros r tr'. apply Hdef. unfold UINT32_MOD. lia.
  - intros r tr'. unfold max_vcpus, bind.
    destruct (check_extension P v KVM_CAP_MAX_VCPUS tr) as [[x|e] tr1] eqn:Hc;
      [|discriminate].
    unfold check_extension, KvmFd_ioctl in Hc. apply ioctl_range in Hc.
    destruct (Z.gtb_spec x 0).
    + unfold ret. intros [= <- _]. lia.
    + apply Hdef. unfold UINT32_MOD. lia.
  - intros r tr'. apply Hdef. unfold UINT32_MOD. lia.
Qed.

(** X9. [num_vcpus()] and [num_memslots()] issue one capability check on
    the descriptor of the machine. [max_vcpus()] issues one, and a second
    one, for the recommended count, exactly when the first returned 0; when
    the first check fails there is no second. *)
Theorem limit_query_calls (v : vm) (tr : list syscall) :
  let chk cap := Sys_ioctl (m_fd v) KVM_CHECK_EXTENSION cap in
  snd (num_vcpus P v tr) = tr ++ [chk KVM_CAP_NR_VCPUS] /\
  snd (num_memslots P v tr) = tr ++ [chk KVM_CAP_NR_MEMSLOTS] /\
  snd (max_vcpus P v tr)
  = (if (0 <=? sr_value (P tr (chk KVM_CAP_MAX_VCPUS)))
        && (to_u32 (sr_value (P tr (chk KVM_CAP_MAX_VCPUS))) =? 0)
     then tr ++ [chk KVM_CAP_MAX_VCPUS; chk KVM_CAP_NR_VCPUS]
     else tr ++ [chk KVM_CAP_MAX_VCPUS]).
Proof.
  intros chk.
  assert (Hone : forall cap d tr0,
             snd (bind (check_extension P v cap)
                    (fun x => ret (if x >? 0 then x else d)) tr0)
             = tr0 ++ [chk cap]).
  { intros cap d tr0. unfold bind.
    pose proof (ioctl_trace (m_fd v) KVM_CHECK_EXTENSION (Some cap) tr0) as Htr.
    unfold check_extension, KvmFd_ioctl.
    destruct (ioctl P (m_fd v) KVM_CHECK_EXTENSION (Some cap) tr0) as [[x|e] tr1];
      exact Htr. }
  split; [apply Hone|]. split; [apply Hone|].
  subst chk. cbv beta in *.
  set (c := Sys_ioctl (m_fd v) KVM_CHECK_EXTENSION KVM_CAP_MAX_VCPUS).
  unfold max_vcpus, bind, check_extension, KvmFd_ioctl.
  destruct (Z.leb_spec 0 (sr_value (P tr c))) as [Hr|Hr].
  - rewrite (ioctl_ok P (m_fd v) KVM_CHECK_EXTENSION (Some KVM_CAP_MAX_VCPUS) tr Hr).
    cbn [from_option andb]. unfold id. fold c.
    pose proof (to_u32_range (sr_value (P tr c))) as Hrange.
    destruct (Z.eqb_spec (to_u32 (sr_value (P tr c))) 0) as [Hz|Hz].
    + rewrite Hz. change (0 >? 0) with false. cbv iota.
      unfold num_vcpus. rewrite Hone. now rewrite <- app_assoc.
    + destruct (Z.gtb_spec (to_u32 (sr_value (P tr c))) 0); [reflexivity|lia].
  - rewrite (ioctl_thrown P (m_fd v) KVM_CHECK_EXTENSION (Some KVM_CAP_MAX_VCPUS) tr Hr).
    reflexivity.
Qed.

(** X10. Tearing down a handle that was not closed issues exactly one
    platform close and does not throw, whatever the close reports; and once
    [close()] has returned, the destructor issues no call, so the descriptor
    is closed exactly once in all. *)
Theorem teardown_closes_once (s : system) (tr : list syscall) :
  closed_ s = false ->
  system_dtor P s tr = (Ok tt, tr ++ [Sys_close (fd_ s)]) /\
  (forall s' tr',
      system_close P s tr = (Ok s', tr') ->
      system_dtor P s' tr' = (Ok tt, tr') /\
      closes_of (fd_ s) tr' = S (closes_of (fd_ s) tr)).
Proof.
  intros Hopen. split.
  - pose proof (dtor_never_throws P s tr) as Hok.
    pose proof (dtor_open_closes_once P s tr Hopen) as Htr.
    destruct (system_dtor P s tr) as [r tr1]. simpl in *.
    destruct r as [[]|e]; [|discriminate Hok]. now subst tr1.
  - intros s' tr' Hclose.
    destruct (close_then_dtor_closes_once P s tr s' tr' Hclose)
      as (_ & _ & Htr & Hdtor).
    split; [exact Hdtor|].
    rewrite Htr, closes_of_app. simpl. rewrite Z.eqb_refl. lia.
Qed.

(** X11. On a platform whose calls return [int]s, the handles derived by
    [system::vm] and [vm::vcpu] own the descriptor the kernel returned: it
    is never negative, and the conversions between [unsigned] and [int] on
    the way leave it unchanged. *)
Theorem derived_handles_are_valid :
  (forall tr c, is_int (sr_value (P tr c))) ->
  (forall s tr m tr',
      system_vm P s tr = (Ok m, tr') ->
      0 <= m_fd m <= INT_MAX /\
      m_fd m
      = sr_value (P (tr ++ [Sys_ioctl (fd_ s) KVM_GET_VCPU_MMAP_SIZE 0])
                    (Sys_ioctl (fd_ s) KVM_CREATE_VM 0))) /\
  (forall v id tr c tr',
      vm_vcpu P v id tr = (Ok c, tr') ->
      0 <= vcpu_fd c <= INT_MAX /\
      vcpu_fd c = sr_value (P tr (Sys_ioctl (m_fd v) KVM_CREATE_VCPU id))).
Proof.
  intros Hint.
  assert (Hfd : forall fd0 req arg tr r tr',
             ioctl P fd0 req arg tr = (Ok r, tr') ->
             r = sr_value (P tr (Sys_ioctl fd0 req (default 0 arg))) /\
             0 <= to_int r <= INT_MAX /\ to_int r = r).
  { intros fd0 req arg tr r tr' Hio.
    destruct (ioctl_dispatch P fd0 req arg tr (Hint _ _)) as (_ & _ & Hv).
    destruct (Hv r) as [Hnn Heq]; [now rewrite Hio|].
    pose proof (Hint tr (Sys_ioctl fd0 req (default 0 arg))) as [_ Hmax].
    split; [exact Heq|]. rewrite to_int_small by lia. lia. }
  split.
  - intros s tr m tr'. unfold system_vm, bind.
    destruct (vcpu_mmap_size P s tr) as [[sz|e] tr1] eqn:Hq; [|discriminate].
    pose proof (ioctl_trace (fd_ s) KVM_GET_VCPU_MMAP_SIZE None tr) as Htr.
    unfold vcpu_mmap_size in Hq. rewrite Hq in Htr. simpl in Htr. subst tr1.
    destruct (create_vm P s _) as [[fd0|e] tr2] eqn:Hc; [|discriminate].
    unfold ret. intros [= <- _]. unfold vm_ctor. cbn [m_fd].
    destruct (Hfd _ _ _ _ _ _ Hc) as (Heq & Hrange & Hid).
    split; [exact Hrange|]. now rewrite Hid, Heq.
  - intros v id tr c tr'. unfold vm_vcpu, bind, KvmFd_ioctl.
    destruct (ioctl P (m_fd v) KVM_CREATE_VCPU (Some id) tr) as [[fd0|e] tr1] eqn:Hc;
      [|discriminate].
    unfold ret. intros [= <- _]. cbn [vcpu_fd].
    destruct (Hfd _ _ _ _ _ _ Hc) as (Heq & Hrange & Hid).
    split; [exact Hrange|]. now rewrite Hid, Heq.
Qed.

(** X12. Attaching an ioevent issues one [KVM_IOEVENTFD] request on the
    descriptor of the machine, for a struct of length 8 that carries the
    event descriptor, the address and the match value, and whose flags are
    [DATAMATCH] exactly when the match value is not 0, [PIO] exactly for a
    port address, and never [DEASSIGN]; detaching issues the same request
    with [DEASSIGN] set as well. No other flag bit is ever set, and a match
    value of 0 cannot be asked for. *)
Theorem ioevent_request (address_of : kvm_ioeventfd -> Z)
  (T : IoEventAddress) (v : vm) (eventfd a dm : Z) (tr : list syscall) :
  let bits :=
    (if dm >? 0 then 1 else 0) + (match T with Pio => 2 | Mmio => 0 end) in
  let arg f :=
    {| datamatch := dm; addr := a; len := 8; fd := eventfd; flags := f |} in
  snd (attach_ioevent P address_of T v eventfd a dm tr)
  = tr ++ [Sys_ioctl (m_fd v) KVM_IOEVENTFD (address_of (arg bits))] /\
  snd (detach_ioevent P address_of T v eventfd a dm tr)
  = tr ++ [Sys_ioctl (m_fd v) KVM_IOEVENTFD (address_of (arg (4 + bits)))] /\
  Z.testbit bits 0 = (dm >? 0) /\
  Z.testbit bits 1 = (match T with Pio => true | Mmio => false end) /\
  Z.testbit bits 2 = false /\
  Z.testbit (4 + bits) 2 = true /\
  4 + bits = Z.lor bits KVM_IOEVENTFD_FLAG_DEASSIGN /\
  0 <= bits < 4.
Proof.
  intros bits arg.
  assert (Hk : forall k, snd (bind (KvmFd_ioctl P (m_fd v) KVM_IOEVENTFD (Some k))
                                (fun _ => ret tt) tr)
                         = tr ++ [Sys_ioctl (m_fd v) KVM_IOEVENTFD k]).
  { intros k. unfold bind, KvmFd_ioctl.
    pose proof (ioctl_trace (m_fd v) KVM_IOEVENTFD (Some k) tr) as Htr.
    destruct (ioctl P (m_fd v) KVM_IOEVENTFD (Some k) tr) as [[x|e] tr1]; exact Htr. }
  unfold attach_ioevent, detach_ioevent, bits, arg.
  split; [|split].
  - rewrite Hk. destruct (dm >? 0), T; reflexivity.
  - rewrite Hk. destruct (dm >? 0), T; reflexivity.
  - destruct (dm >? 0), T; repeat split; try reflexivity; lia.
Qed.
End KvmMoreFacts.

(** On [kvm_host] the root queries and creates, in this order. *)
Lemma system_vm_call_order_witness :
  snd (Kvm.system_vm Kvm.kvm_host {| Kvm.fd_ := 3; Kvm.closed_ := false |} [])
  = [Utility.Sys_ioctl 3 44548 0; Utility.Sys_ioctl 3 44545 0].
Proof.
  apply (system_vm_call_order Kvm.kvm_host
           {| Kvm.fd_ := 3; Kvm.closed_ := false |} []).
  simpl. lia.
Defined.

(** On [kvm_host], which reports no capability, the three limits are the
    defaults, all positive. *)
Lemma limits_are_positive_witness :
  let v := {| Kvm.m_fd := 5; Kvm.m_mmap_size := 12288 |} in
  1 <= 4 < Ints.UINT32_MOD /\ 1 <= 32 < Ints.UINT32_MOD.
Proof.
  intros v.
  destruct (limits_are_positive Kvm.kvm_host v []) as (Hn & Hm & Hs).
  split.
  - exact (Hm 4 _ eq_refl).
  - exact (Hs 32 _ eq_refl).
Defined.

(** An open handle on descriptor 3: the destructor closes it once. *)
Lemma teardown_closes_once_witness :
  Kvm.system_dtor (Utility.failing 5) {| Kvm.fd_ := 3; Kvm.closed_ := false |} []
  = (Utility.Ok tt, [Utility.Sys_close 3]).
Proof.
  exact (proj1 (teardown_closes_once (Utility.failing 5)
                  {| Kvm.fd_ := 3; Kvm.closed_ := false |} [] eq_refl)).
Defined.

Lemma kvm_host_returns_ints tr c :
  Ints.is_int (Utility.sr_value (Kvm.kvm_host tr c)).
Proof.
  unfold Ints.is_int, Ints.INT_MIN, Ints.INT_MAX, Kvm.kvm_host.
  destruct c as [? req ?|?]; [|simpl; lia].
  destruct (req =? Kvm.KVM_GET_VCPU_MMAP_SIZE); [simpl; lia|].
  destruct (req =? Kvm.KVM_CREATE_VM); simpl; lia.
Qed.

(** On [kvm_host] the machine owns descriptor 5. *)
Lemma derived_handles_are_valid_witness :
  0 <= 5 <= Ints.INT_MAX.
Proof.
  destruct (derived_handles_are_valid Kvm.kvm_host kvm_host_returns_ints)
    as [Hvm _].
  exact (proj1 (Hvm {| Kvm.fd_ := 3; Kvm.closed_ := false |} []
                  {| Kvm.m_fd := 5; Kvm.m_mmap_size := 12288 |} _ eq_refl)).
Defined.

(** ** More of the FAM records *)

Section FamMoreFacts.
Import Ints Fam.
Context {E : Type}.
Implicit Types (h : gmap loc (block E)) (b : block E) (this : FamStruct).

(** The single-entry constructor builds what the range constructor builds
    from a range of that one entry. *)
Lemma from_entry_from_range (C : fam_class E) (e : E) h :
  from_entry C e h = from_range C (Container [e]) h.
Proof.
  unfold from_entry, from_range. cbn [distance length copy_if copy_if_values].
  change (Z.of_nat 1) with 1. unfold hbind.
  destruct (sized C 1 h) as [[this h1]|]; [|reflexivity].
  destruct (entries false this h1) as [[p h2]|]; [|reflexivity].
  destruct (ptr_write p e h2) as [[[] h3]|]; reflexivity.
Qed.

(** Copy assignment, for a class that holds every 32-bit count. *)
Lemma copy_assign_generic (C : fam_class E) :
  (forall n, 0 <= n < UINT32_MOD -> adequate C n) -> copy_assign_ok C.
Proof.
  intros Had h a b la lb ba bb n Ha Hb Hla Hlb Hwf.
  pose proof Hwf as (Hcount & Hn & Hlen).
  specialize (Had n Hn).
  set (xs := take (Z.to_nat n) (blk_entries bb)).
  assert (Hxs : length xs = Z.to_nat n) by (unfold xs; now rewrite length_take_le).
  destruct (written_block C n xs Hn Had Hxs) as [Hwf' Htake].
  set (l' := fresh (dom h)).
  set (b' := with_entries (sized_block C n)
               (overwrite 0 xs (blk_entries (sized_block C n)))) in *.
  assert (Hfresh : h !! l' = None) by apply fresh_not_live.
  assert (Hne : l' <> la) by now apply fresh_ne_live with ba.
  assert (Hneb : l' <> lb) by now apply fresh_ne_live with bb.
  set (h' := delete la (<[l' := b']> h)).
  assert (Hl' : h' !! l' = Some b').
  { unfold h'. rewrite lookup_delete_ne by congruence. apply lookup_insert_eq. }
  exists l', h', xs.
  split.
  { unfold copy_assign, hbind.
    rewrite (copy_ctor_spec C b lb bb n h Hb Hlb Hwf Had). fold l' xs b'.
    unfold assign, hbind. cbn [ptr_].
    rewrite (destroy_live {| ptr_ := ptr_ a |} la ba (<[l' := b']> h) Ha).
    - reflexivity.
    - now rewrite lookup_insert_ne. }
  split; [exact Hfresh|].
  split; [exact (elements_live b _ _ _ _ Hb Hlb Hwf)|].
  split; [exact (size_live {| ptr_ := Some l' |} _ _ _ _ eq_refl Hl' (proj1 Hwf'))|].
  split.
  { rewrite (elements_live {| ptr_ := Some l' |} _ _ _ _ eq_refl Hl' Hwf').
    now rewrite Htake. }
  split; [apply lookup_delete_eq|].
  split.
  { intros l Hl1 Hl2. unfold h'.
    rewrite lookup_delete_ne by congruence. now rewrite lookup_insert_ne. }
  intros Hab.
  assert (Hlb' : h' !! lb = Some bb).
  { unfold h'. rewrite lookup_delete_ne by exact Hab.
    now rewrite lookup_insert_ne. }
  exact (elements_live b _ _ _ _ Hb Hlb' Hwf).
Qed.

(** Constructing a record and destroying it gives the heap back. *)
Lemma sized_destroy (C : fam_class E) n h :
  header_ok C n -> hbind (sized C n) destroy h = Some (tt, h).
Proof.
  intros Hhdr. unfold hbind. rewrite (sized_spec C n h Hhdr).
  rewrite (destroy_live {| ptr_ := Some (fresh (dom h)) |} _ _ _ eq_refl
             (lookup_insert_eq _ _ _)).
  now rewrite delete_insert_id by apply fresh_not_live.
Qed.

Lemma from_range_destroy (C : fam_class E) (xs : list E) h :
  Z.of_nat (length xs) < UINT32_MOD ->
  adequate C (Z.of_nat (length xs)) ->
  hbind (from_range C (Container xs)) destroy h = Some (tt, h).
Proof.
  intros Hlt Had.
  destruct (from_range_generic C xs Hlt Had h)
    as (this & l & b & Hfrom & Hp & Hfresh & _).
  unfold hbind. rewrite Hfrom.
  rewrite (destroy_live this l b _ Hp (lookup_insert_eq _ _ _)).
  now rewrite delete_insert_id.
Qed.

(** When the allocation of the sized constructor does not hold the header
    words the constructor stores to, the constructor stores outside it. *)
Lemma sized_undefined (C : fam_class E) n h :
  ~ header_ok C n -> sized C n h = None.
Proof.
  unfold header_ok, sized, FamStruct_ctor. intros Hhdr.
  set (m := count_param C n) in *. set (u := to_size_t (units_for C m)) in *.
  set (l := fresh (dom h)).
  unfold hbind at 1 2.
  unfold store_header at 1, hbind at 1.
  rewrite (deref_live {| ptr_ := Some l |} l (zeroed (lay C) u) _ eq_refl
             (lookup_insert_eq _ _ _)).
  cbn [zeroed blk_header blk_units blk_entries]. rewrite length_replicate.
  destruct (decide (0 < header_words (lay C) u)%nat) as [Hpos|]; [|reflexivity].
  rewrite insert_insert_eq.
  destruct (clears_flags C); [|lia].
  unfold hbind, store_header, hbind.
  rewrite (deref_live {| ptr_ := Some l |} l _ _ eq_refl (lookup_insert_eq _ _ _)).
  cbn [blk_header]. rewrite length_insert, length_replicate.
  destruct (decide (1 < header_words (lay C) u)%nat); [lia|reflexivity].
Qed.

(** A range that is longer than the array of the record built for it:
    [copy_if] stores past the end of the allocation. *)
Lemma copy_if_values_overflow (xs : list E) : forall off l b h,
  h !! l = Some b -> 0 <= off ->
  (Z.to_nat off <= length (blk_entries b))%nat ->
  (length (blk_entries b) < Z.to_nat off + length xs)%nat ->
  copy_if_values xs {| p_loc := l; p_off := off; p_const := false |}
    (fun _ => true) h = None.
Proof.
  induction xs as [|x xs IH]; intros off l b h Hl Hoff Hle Hlen.
  - cbn [length] in Hlen. lia.
  - cbn [copy_if_values length] in *. unfold hbind.
    destruct (decide (Z.to_nat off < length (blk_entries b))%nat) as [Hin|Hout].
    + rewrite (ptr_write_live _ _ _ x _ Hl Hoff Hin).
      unfold advance. cbn [p_loc p_off p_const].
      apply (IH (off + 1) l _ _ (lookup_insert_eq _ _ _)); [lia| |];
        cbn [with_entries blk_entries]; rewrite length_insert; lia.
    + unfold ptr_write. cbn [p_loc p_off p_const]. rewrite Hl.
      destruct (decide _) as [[_ Hin]|]; [lia|reflexivity].
Qed.

Lemma from_range_overflow (C : fam_class E) (xs : list E) h :
  let n := Z.of_nat (length xs) in
  header_ok C n ->
  (length (blk_entries (sized_block C n)) < length xs)%nat ->
  from_range C (Container xs) h = None.
Proof.
  intros n Hhdr Hroom. unfold from_range, hbind.
  change (distance (Container xs)) with n.
  rewrite (sized_spec C n h Hhdr).
  rewrite (entries_live false {| ptr_ := Some (fresh (dom h)) |} _
             (sized_block C n) _ eq_refl (lookup_insert_eq _ _ _)).
  cbn [copy_if].
  rewrite (copy_if_values_overflow xs 0 _ (sized_block C n) _
             (lookup_insert_eq _ _ _)); [reflexivity|lia| |];
    change (Z.to_nat 0) with 0%nat; lia.
Qed.

(** X4. A store through the mutable [begin()] at an index below [size()]
    changes that element and nothing else: the count, the other elements
    and every other allocation are as before. A store at an index past the
    end of the allocation is undefined. *)
Theorem store_in_place h this l b n (i : nat) (v : E) :
  ptr_ this = Some l -> h !! l = Some b -> well_formed b n ->
  ((i < Z.to_nat n)%nat ->
   exists h',
     set_element this i v h = Some (tt, h') /\
     size this h' = Some (n, h') /\
     elements this h'
     = Some (<[i := v]> (take (Z.to_nat n) (blk_entries b)), h') /\
     (forall l', l' <> l -> h' !! l' = h !! l')) /\
  ((length (blk_entries b) <= i)%nat -> set_element this i v h = None).
Proof.
  intros Hp Hl Hwf. pose proof Hwf as (Hcount & Hn & Hlen). split.
  - intros Hi.
    set (b' := with_entries b (<[i := v]> (blk_entries b))).
    exists (<[l := b']> h).
    assert (Hl' : (<[l := b']> h) !! l = Some b') by apply lookup_insert_eq.
    assert (Hwf' : well_formed b' n).
    { unfold b', well_formed. cbn [with_entries blk_header blk_entries].
      rewrite length_insert. now repeat split. }
    split.
    { unfold set_element, hbind, begin.
      rewrite (entries_live false this _ _ _ Hp Hl).
      unfold advance. cbn [p_loc p_off p_const]. rewrite Z.add_0_l.
      rewrite (ptr_write_live l (Z.of_nat i) b v h Hl) by lia.
      now rewrite Nat2Z.id. }
    split; [exact (size_live this _ _ _ _ Hp Hl' Hcount)|].
    split.
    { rewrite (elements_live this _ _ _ _ Hp Hl' Hwf').
      unfold b'. cbn [with_entries blk_entries].
      now rewrite take_insert_lt by lia. }
    intros l' Hne. now rewrite lookup_insert_ne.
  - intros Hi. unfold set_element, hbind, begin.
    rewrite (entries_live false this _ _ _ Hp Hl).
    unfold advance, ptr_write. cbn [p_loc p_off p_const]. rewrite Hl.
    destruct (decide _) as [[_ Hin]|]; [|reflexivity].
    rewrite Z.add_0_l, Nat2Z.id in Hin. lia.
Qed.
End FamMoreFacts.

(** The mutable iterator of the list of the two round-trip entries: the
    value of the second entry is set in place. *)
Lemma store_in_place_witness :
  let e0 := {| Fam.msr_index := 372; Fam.msr_reserved := 0; Fam.msr_data := 0 |} in
  let e1 := {| Fam.msr_index := 373; Fam.msr_reserved := 0; Fam.msr_data := 1 |} in
  let e1' := {| Fam.msr_index := 373; Fam.msr_reserved := 0; Fam.msr_data := 7 |} in
  let b := {| Fam.blk_units := 5; Fam.blk_header := [2; 0];
              Fam.blk_entries := [e0; e1] |} in
  let this := {| Fam.ptr_ := Some 1%positive |} in
  (exists h', Fam.set_element this 1 e1' {[ 1%positive := b ]} = Some (tt, h') /\
              Fam.elements this h' = Some ([e0; e1'], h')) /\
  Fam.set_element this 2 e1' {[ 1%positive := b ]} = None.
Proof.
  intros e0 e1 e1' b this.
  assert (Hwf : Fam.well_formed b 2).
  { split; [reflexivity|]. split; [unfold Ints.UINT32_MOD; lia|]. simpl. lia. }
  split.
  - destruct (proj1 (store_in_place {[ 1%positive := b ]} this 1%positive b 2
                       1%nat e1' eq_refl (lookup_singleton_eq _ _) Hwf))
      as (h' & Hset & _ & Hes & _); [simpl; lia|].
    exists h'. split; [exact Hset|exact Hes].
  - apply (proj2 (store_in_place {[ 1%positive := b ]} this 1%positive b 2
                    2%nat e1' eq_refl (lookup_singleton_eq _ _) Hwf)).
    simpl. lia.
Defined.

(** X1. The single-entry constructors of the register-value list and of
    the cpuid list build the record the range constructor builds from a
    range of that one entry: a fresh record with [size() == 1] whose
    iteration yields the entry. *)
Theorem from_entry_singleton
  (e : Fam.kvm_msr_entry) (c : Fam.kvm_cpuid_entry2)
  (h1 : gmap Fam.loc (Fam.block Fam.kvm_msr_entry))
  (h2 : gmap Fam.loc (Fam.block Fam.kvm_cpuid_entry2)) :
  Fam.from_entry Fam.MsrList e h1 = Fam.from_range Fam.MsrList (Fam.Container [e]) h1 /\
  Fam.from_entry Fam.CpuidList c h2
  = Fam.from_range Fam.CpuidList (Fam.Container [c]) h2 /\
  (exists this l b,
      Fam.from_entry Fam.MsrList e h1 = Some (this, <[l := b]> h1) /\
      h1 !! l = None /\
      Fam.size this (<[l := b]> h1) = Some (1, <[l := b]> h1) /\
      Fam.elements this (<[l := b]> h1) = Some ([e], <[l := b]> h1)) /\
  (exists this l b,
      Fam.from_entry Fam.CpuidList c h2 = Some (this, <[l := b]> h2) /\
      h2 !! l = None /\
      Fam.size this (<[l := b]> h2) = Some (1, <[l := b]> h2) /\
      Fam.elements this (<[l := b]> h2) = Some ([c], <[l := b]> h2)).
Proof.
  assert (H1 : 0 <= 1 < Ints.UINT32_MOD) by (unfold Ints.UINT32_MOD; lia).
  split; [apply from_entry_from_range|]. split; [apply from_entry_from_range|].
  split.
  - destruct (from_range_generic Fam.MsrList [e] (proj2 H1)
                (MsrList_adequate 1 H1) h1)
      as (this & l & b & Hfrom & _ & Hfresh & Hsz & Hes).
    exists this, l, b. rewrite from_entry_from_range. now repeat split.
  - destruct (from_range_generic Fam.CpuidList [c] (proj2 H1)
                (CpuidList_adequate 1 H1) h2)
      as (this & l & b & Hfrom & _ & Hfresh & Hsz & Hes).
    exists this, l, b. rewrite from_entry_from_range. now repeat split.
Qed.

(** X2. Copy assignment of register-value lists and of cpuid lists,
    [a = b]: [a] ends up owning a new allocation with the count and the
    elements of [b], the allocation [a] owned before is released, and every
    other allocation is untouched, that of [b] included; this holds for
    [a = a] as well. *)
Theorem copy_assign_replaces :
  Fam.copy_assign_ok Fam.MsrList /\ Fam.copy_assign_ok Fam.CpuidList.
Proof.
  split; apply copy_assign_generic; intros n Hn.
  - now apply MsrList_adequate.
  - now apply CpuidList_adequate.
Qed.

(** A list of two entries assigned over an empty list, and over itself. *)
Lemma copy_assign_replaces_witness :
  let e0 := {| Fam.msr_index := 372; Fam.msr_reserved := 0; Fam.msr_data := 0 |} in
  let e1 := {| Fam.msr_index := 373; Fam.msr_reserved := 0; Fam.msr_data := 1 |} in
  let bb := {| Fam.blk_units := 5; Fam.blk_header := [2; 0];
               Fam.blk_entries := [e0; e1] |} in
  let ba := {| Fam.blk_units := 1; Fam.blk_header := [0; 0];
               Fam.blk_entries := [] |} in
  let h : gmap Fam.loc (Fam.block Fam.kvm_msr_entry) :=
    {[ 1%positive := ba; 2%positive := bb ]} in
  let a := {| Fam.ptr_ := Some 1%positive |} in
  let b := {| Fam.ptr_ := Some 2%positive |} in
  (exists a' h', Fam.copy_assign Fam.MsrList a b h = Some (a', h') /\
                 Fam.elements a' h' = Some ([e0; e1], h') /\
                 h' !! 1%positive = None) /\
  (exists b' h', Fam.copy_assign Fam.MsrList b b h = Some (b', h') /\
                 Fam.elements b' h' = Some ([e0; e1], h')).
Proof.
  intros e0 e1 bb ba h a b.
  assert (Hwf : Fam.well_formed bb 2).
  { split; [reflexivity|]. split; [unfold Ints.UINT32_MOD; lia|]. simpl. lia. }
  assert (Hes : Fam.elements b h = Some ([e0; e1], h)) by reflexivity.
  split.
  - destruct (proj1 copy_assign_replaces h a b 1%positive 2%positive ba bb 2
                eq_refl eq_refl eq_refl eq_refl Hwf)
      as (l' & h' & xs & Hassign & _ & Hxs & _ & Hes' & Hgone & _).
    rewrite Hes in Hxs. injection Hxs as <-.
    exists {| Fam.ptr_ := Some l' |}, h'. now repeat split.
  - destruct (proj1 copy_assign_replaces h b b 2%positive 2%positive bb bb 2
                eq_refl eq_refl eq_refl eq_refl Hwf)
      as (l' & h' & xs & Hassign & _ & Hxs & _ & Hes' & _).
    rewrite Hes in Hxs. injection Hxs as <-.
    exists {| Fam.ptr_ := Some l' |}, h'. now split.
Defined.

(** X3. Nothing is leaked: constructing a list (from a count, or from a
    range of fewer than [2^32] elements) and destroying it gives back the
    heap as it was before the construction. *)
Theorem construct_destroy_restores_heap
  (n : Z) (xs : list Fam.kvm_msr_entry) (ys : list Fam.kvm_cpuid_entry2)
  (h0 : gmap Fam.loc (Fam.block Z))
  (h1 : gmap Fam.loc (Fam.block Fam.kvm_msr_entry))
  (h2 : gmap Fam.loc (Fam.block Fam.kvm_cpuid_entry2)) :
  0 <= n < 2 ^ 32 ->
  Z.of_nat (length xs) < 2 ^ 32 ->
  Z.of_nat (length ys) < 2 ^ 32 ->
  Fam.hbind (Fam.sized Fam.MsrIndexList n) Fam.destroy h0 = Some (tt, h0) /\
  Fam.hbind (Fam.sized Fam.MsrList n) Fam.destroy h1 = Some (tt, h1) /\
  Fam.hbind (Fam.sized Fam.CpuidList n) Fam.destroy h2 = Some (tt, h2) /\
  Fam.hbind (Fam.from_range Fam.MsrList (Fam.Container xs)) Fam.destroy h1
  = Some (tt, h1) /\
  Fam.hbind (Fam.from_range Fam.CpuidList (Fam.Container ys)) Fam.destroy h2
  = Some (tt, h2).
Proof.
  intros Hn Hxs Hys.
  split; [apply sized_destroy, (MsrIndexList_adequate n Hn)|].
  split; [apply sized_destroy, (MsrList_adequate n Hn)|].
  split; [apply sized_destroy, (CpuidList_adequate n Hn)|].
  split; apply from_range_destroy; try assumption.
  - apply MsrList_adequate. unfold Ints.UINT32_MOD. lia.
  - apply CpuidList_adequate. unfold Ints.UINT32_MOD. lia.
Qed.

(** A feature list of 22 indices, built on the empty heap and destroyed. *)
Lemma construct_destroy_restores_heap_witness :
  Fam.hbind (Fam.sized Fam.MsrIndexList 22) Fam.destroy ∅ = Some (tt, ∅).
Proof.
  apply (construct_destroy_restores_heap 22 [] [] ∅ ∅ ∅); simpl; lia.
Defined.

(** The interrupt-routing table holds every 32-bit count when the unit of
    its buffer has at least 8 bytes. *)
Lemma IrqRoutingList_adequate buffer n :
  8 <= buffer -> 0 <= n < Ints.UINT32_MOD ->
  Fam.adequate (Fam.IrqRoutingList buffer) n.
Proof.
  intros Hb Hn.
  unfold Fam.adequate, Fam.header_ok, Fam.header_words, Fam.capacity,
    Fam.alloc_bytes.
  cbn [Fam.lay Fam.units_for Fam.count_param Fam.clears_flags
       Fam.sizeof_Buffer Fam.offsetof_entries Fam.sizeof_value_type
       Fam.IrqRoutingList Fam.kvm_irq_routing].
  change (48 / 2) with 24.
  unfold Ints.to_size_t, Ints.to_u32, Ints.SIZE_MOD, Ints.UINT32_MOD in *.
  rewrite (Z.mod_small n (2 ^ 32)) by lia.
  rewrite (Z.mod_small (n * 24 + 1) (2 ^ 64)) by lia.
  assert (Hbytes : 192 * n + 8 <= (n * 24 + 1) * buffer) by nia.
  split; [reflexivity|]. split.
  - rewrite Z.min_r by lia. change (8 / 4) with 2. lia.
  - apply Z2Nat.inj_le; [lia| |].
    + apply Z.div_pos; lia.
    + apply Z.div_le_lower_bound; lia.
Qed.

(** X5. The sized constructor of the interrupt-routing table stores the
    count and the flags word. When the unit of its buffer has at least 8
    bytes, it yields for every 32-bit count [n] a zero-initialised record of
    [n] entries, flags 0; with a smaller unit the allocation of an empty
    table, one unit, is shorter than the header and the constructor stores
    outside it. *)
Theorem irq_routing_table_header (buffer : Z) :
  (8 <= buffer ->
   forall n, 0 <= n < 2 ^ 32 -> Fam.allocate_ok (Fam.IrqRoutingList buffer) n) /\
  (0 < buffer < 8 ->
   forall h, Fam.sized (Fam.IrqRoutingList buffer) 0 h = None).
Proof.
  split.
  - intros Hb n Hn. apply allocate_generic; [exact Hn|].
    now apply IrqRoutingList_adequate.
  - intros Hb h. apply sized_undefined.
    unfold Fam.header_ok, Fam.header_words, Fam.alloc_bytes.
    cbn [Fam.lay Fam.units_for Fam.count_param Fam.clears_flags
         Fam.sizeof_Buffer Fam.offsetof_entries Fam.sizeof_value_type
         Fam.IrqRoutingList Fam.kvm_irq_routing].
    change (Ints.to_size_t (Ints.to_u32 0 * (48 / 2) + 1)) with 1.
    rewrite Z.mul_1_l, Z.min_l by lia.
    assert (buffer / 4 < 2) by (apply Z.div_lt_upper_bound; lia).
    lia.
Qed.

(** An empty table over 8-byte units, and over 4-byte units. *)
Lemma irq_routing_table_header_witness :
  Fam.allocate_ok (Fam.IrqRoutingList 8) 0 /\
  Fam.sized (Fam.IrqRoutingList 4) 0 ∅ = None.
Proof.
  split.
  - apply (proj1 (irq_routing_table_header 8)); lia.
  - apply (proj2 (irq_routing_table_header 4)). lia.
Defined.

(** X6. The range constructor of the cpuid list converts the length of
    the range to [uint32_t] before it allocates: for a range whose length
    exceeds four times its length modulo [2^32], the first of them being
    [2^32], the allocation is too short for the range and [copy_if] stores
    past its end. *)
Theorem cpuid_range_overflows
  (ys : list Fam.kvm_cpuid_entry2)
  (h : gmap Fam.loc (Fam.block Fam.kvm_cpuid_entry2)) :
  4 * (Z.of_nat (length ys) mod 2 ^ 32) < Z.of_nat (length ys) ->
  Fam.from_range Fam.CpuidList (Fam.Container ys) h = None.
Proof.
  intros Hlong.
  pose proof (Z.mod_pos_bound (Z.of_nat (length ys)) (2 ^ 32) ltac:(lia)) as Hm.
  apply from_range_overflow.
  - fam_arith. lia.
  - unfold Fam.sized_block. cbn [Fam.blk_entries]. rewrite length_replicate.
    apply Nat2Z.inj_lt. fam_arith. lia.
Qed.

(** A range of [2^32] cpuid entries. *)
Lemma cpuid_range_overflows_witness :
  Fam.from_range Fam.CpuidList
    (Fam.Container (replicate (Z.to_nat (2 ^ 32)) (Fam.value_zero Fam.kvm_cpuid2))) ∅
  = None.
Proof.
  apply cpuid_range_overflows.
  rewrite length_replicate, Z2Nat.id by (apply Z.pow_nonneg; discriminate).
  rewrite Z.mod_same by (apply Z.pow_nonzero; discriminate).
  reflexivity.
Defined.
